(** * LunarDB API: the key-value store and the per-client admission controller

    A shallow embedding of the Go sources
    - [main.go] (package [main]): [LunarDB], a [map[string]string] behind a
      [sync.RWMutex], with [Set], [Get], [Del] and [Keys];
    - [ratelimit.go] (package [middleware]): [IPRateLimiter], a registry
      [map[string]*Client] of [rate.Limiter] buckets behind a [sync.RWMutex],
      with [AddClient], [GetLimiter], [CleanupStaleClients] and the HTTP
      handler [RateLimitMiddleware].

    - [main.go] again: [APIKeyManager], [APIKeyMiddleware], the handlers and
      the routes of [setupRoutes];
    - [auth.go] (package [middleware]): [AuthMiddleware].

    Go code that takes locks and mutates shared objects is written in a small
    state monad whose outcomes record whether the call returned, parked the
    goroutine for good, or hit a fatal runtime error. *)

From stdpp Require Import gmap strings list fin_maps.
From Stdlib Require Import ZArith QArith Qminmax Lia Lqa.

Set Default Proof Using "Type".
Local Open Scope Z_scope.

(** ** Package [sync]: outcomes, the call monad and [sync.RWMutex] *)

Module sync.

(** How a call made by one goroutine ends, when no other goroutine touches the
    state while it runs.  A goroutine parked in [Lock] resumes only when the
    lock is released by someone else; a call that starts with the lock free
    and parks on it is therefore waiting for itself. *)
Inductive Outcome (St A : Type) : Type :=
| Done (a : A) (s : St)   (* the call returned [a], leaving state [s] *)
| Blocked (s : St)        (* the goroutine is parked in [Lock]/[RLock] at state [s] *)
| Crashed (s : St).       (* fatal runtime error (unlock of an unlocked mutex,
                             call through a pointer to nothing) *)

Arguments Done {St A} a s.
Arguments Blocked {St A} s.
Arguments Crashed {St A} s.

Definition M (St A : Type) : Type := St → Outcome St A.

Definition ret {St A} (a : A) : M St A := λ s, Done a s.

Definition bind {St A B} (m : M St A) (k : A → M St B) : M St B :=
  λ s, match m s with
       | Done a s' => k a s'
       | Blocked s' => Blocked s'
       | Crashed s' => Crashed s'
       end.

Definition gets {St A} (f : St → A) : M St A := λ s, Done (f s) s.
Definition modify {St} (f : St → St) : M St unit := λ s, Done tt (f s).

(** The final state of an outcome, whatever its kind. *)
Definition final {St A} (o : Outcome St A) : St :=
  match o with Done _ s | Blocked s | Crashed s => s end.

Definition returned {St A} (o : Outcome St A) : bool :=
  match o with Done _ _ => true | _ => false end.

(** [sync.RWMutex]: one writer or any number of readers.  [pending] says
    that a writer has announced itself and waits for the readers to leave;
    from then on new readers wait behind it. *)
Record RWMutex : Type := mkRWMutex { writer : bool; readers : nat; pending : bool }.

(** The zero value of the struct is an unlocked mutex. *)
Definition unlocked : RWMutex := {| writer := false; readers := 0; pending := false |}.

(** The mutex while a writer holds it. *)
Definition write_locked : RWMutex := {| writer := true; readers := 0; pending := false |}.

(** [Lock] proceeds only when there is no writer, holding or waiting, and no
    reader; it is not reentrant: a goroutine that already holds the lock
    waits like any other. *)
Definition try_Lock (m : RWMutex) : option RWMutex :=
  if writer m || pending m || negb (Nat.eqb (readers m) 0) then None
  else Some {| writer := true; readers := readers m; pending := false |}.

(** The mutex left by a goroutine that parks in [Lock].  Behind a writer that
    holds the lock or waits for it, the newcomer queues up for its turn and
    the mutex is as before; when only readers hold the lock, the newcomer
    announces itself. *)
Definition parked_in_Lock (m : RWMutex) : RWMutex :=
  if writer m || pending m then m
  else {| writer := false; readers := readers m; pending := true |}.

(** [Unlock] of a mutex that is not locked for writing is a fatal error. *)
Definition try_Unlock (m : RWMutex) : option RWMutex :=
  if writer m
  then Some {| writer := false; readers := readers m; pending := pending m |}
  else None.

(** [RLock] waits while a writer holds the lock or waits for it.  A reader
    that parks is not recorded in the mutex: it comes into play only when
    the writer unlocks. *)
Definition try_RLock (m : RWMutex) : option RWMutex :=
  if writer m || pending m then None
  else Some {| writer := false; readers := S (readers m); pending := false |}.

Definition try_RUnlock (m : RWMutex) : option RWMutex :=
  match readers m with
  | O => None
  | S n => Some {| writer := writer m; readers := n; pending := pending m |}
  end.

Section ops.
Context {St : Type}.
(** Where the mutex lives in the state. *)
Variable get_mu : St → RWMutex.
Variable set_mu : RWMutex → St → St.

Definition Lock : M St unit := λ s,
  match try_Lock (get_mu s) with
  | Some m => Done tt (set_mu m s)
  | None => Blocked (set_mu (parked_in_Lock (get_mu s)) s)
  end.

Definition Unlock : M St unit := λ s,
  match try_Unlock (get_mu s) with
  | Some m => Done tt (set_mu m s)
  | None => Crashed s
  end.

Definition RLock : M St unit := λ s,
  match try_RLock (get_mu s) with
  | Some m => Done tt (set_mu m s)
  | None => Blocked s
  end.

Definition RUnlock : M St unit := λ s,
  match try_RUnlock (get_mu s) with
  | Some m => Done tt (set_mu m s)
  | None => Crashed s
  end.
End ops.

End sync.

Import sync.

Notation "x <- m ;; k" := (bind m (λ x, k))
  (at level 100, m at next level, right associativity, only parsing).
Notation "m ;;; k" := (bind m (λ _, k))
  (at level 100, right associativity, only parsing).

(** ** Ranging over a map *)

(** [for k, v := range m] visits each entry of [m] once, in an order the
    runtime chooses afresh on every loop.  A loop is modelled by the sequence
    of entries it is handed; [range_of m order] says that [order] is such a
    sequence for [m]. *)
Definition range_of {V} (m : gmap string V) (order : list (string * V)) : Prop :=
  order ≡ₚ map_to_list m.

(** ** Package [main]: the store [LunarDB] *)

Module main.

Record LunarDB : Type := mkLunarDB {
  data : gmap string string;
  mu : RWMutex;
}.

Definition set_data (f : gmap string string → gmap string string) (db : LunarDB) : LunarDB :=
  {| data := f (data db); mu := mu db |}.
Definition set_mu (m : RWMutex) (db : LunarDB) : LunarDB :=
  {| data := data db; mu := m |}.

(** [NewLunarDB]: an empty map and the zero mutex. *)
Definition NewLunarDB : LunarDB := {| data := ∅; mu := unlocked |}.

(** A store holding [d] on which no call is in progress. *)
Definition at_rest (d : gmap string string) : LunarDB := {| data := d; mu := unlocked |}.

(** [Set] ([Set] is a reserved word here, hence the underscore).
    [defer db.mu.Unlock()] runs when the body has returned. *)
Definition Set_ (key value : string) : M LunarDB unit :=
  Lock mu set_mu ;;;
  modify (set_data (insert key value)) ;;;
  Unlock mu set_mu.

(** [value, exists := db.data[key]]: the zero string when the key is absent. *)
Definition Get (key : string) : M LunarDB (string * bool) :=
  RLock mu set_mu ;;;
  r <- gets (λ db, match data db !! key with
                   | Some value => (value, true)
                   | None => (EmptyString, false)
                   end) ;;
  RUnlock mu set_mu ;;;
  ret r.

Definition Del (key : string) : M LunarDB bool :=
  Lock mu set_mu ;;;
  exists_ <- gets (λ db, bool_decide (is_Some (data db !! key))) ;;
  (if exists_ : bool then modify (set_data (delete key)) else ret tt) ;;;
  Unlock mu set_mu ;;;
  ret exists_.

(** [keys := make([]string, 0, len(db.data))], then
    [for k := range db.data { keys = append(keys, k) }].  The runtime yields
    the entries of the map once each, in an order of its choosing; [order] is
    the sequence it yields on this call. *)
Definition Keys (order : list (string * string)) : M LunarDB (list string) :=
  RLock mu set_mu ;;;
  keys <- ret (foldl (λ keys kv, keys ++ [kv.1]) [] order) ;;
  RUnlock mu set_mu ;;;
  ret keys.

(** A read-only call on the store and what it returns. *)
Inductive ReadCall : Type :=
| CallGet (key : string)
| CallKeys (order : list (string * string)).

Inductive ReadResult : Type :=
| GotValue (value : string) (found : bool)
| GotKeys (keys : list string).

Definition read (c : ReadCall) : M LunarDB ReadResult :=
  match c with
  | CallGet key => r <- Get key ;; ret (GotValue r.1 r.2)
  | CallKeys order => keys <- Keys order ;; ret (GotKeys keys)
  end.

(** A sequence of read-only calls, one after the other. *)
Fixpoint reads (cs : list ReadCall) : M LunarDB (list ReadResult) :=
  match cs with
  | [] => ret []
  | c :: rest => r <- read c ;; rs <- reads rest ;; ret (r :: rs)
  end.

(** A call is read-only when it leaves the map as it found it, however it
    ends. *)
Definition read_only {A} (m : M LunarDB A) : Prop :=
  ∀ db, data (final (m db)) = data db.

End main.

(** ** Package [time]: instants and durations in nanoseconds *)

Module time.

Definition Nanosecond : Z := 1.
Definition Second : Z := 1000000000 * Nanosecond.
Definition Minute : Z := 60 * Second.
Definition Hour : Z := 60 * Minute.

(** [time.Duration] is an [int64]. *)
Definition minDuration : Z := - 2 ^ 63.
Definition maxDuration : Z := 2 ^ 63 - 1.

(** [t.Sub(u)]: the difference, saturated to the range of [Duration]. *)
Definition Sub (t u : Z) : Z :=
  if t - u <? minDuration then minDuration
  else if maxDuration <? t - u then maxDuration
  else t - u.

End time.

(** ** Package [rate]: the token bucket *)

Module rate.
Local Open Scope Q_scope.

(** Modelled from the spec: the token bucket [rate.Limiter] with [NewLimiter]
    and [Allow], which the repository imports from golang.org/x/time/rate and
    whose source is not part of it.  The bucket holds a refill rate (tokens
    per second), a burst capacity, the current token count and the instant of
    the last refill; it starts full. *)
Record Limiter : Type := mkLimiter {
  limit : Q;
  burst : Z;
  tokens : Q;
  last : Z;
}.

Definition NewLimiter (r : Q) (b : Z) (now : Z) : Limiter :=
  {| limit := r; burst := b; tokens := inject_Z b; last := now |}.

(** Seconds between two instants given in nanoseconds. *)
Definition seconds_between (from to : Z) : Q := Qmake (to - from) 1000000000.

(** The count before the cap: what the bucket held plus what has dripped in
    since the last refill. *)
Definition uncapped (now : Z) (lim : Limiter) : Q :=
  tokens lim + limit lim * seconds_between (last lim) now.

(** Modelled from the spec: the token count advanced by
    [rate * elapsed_time_since_last_refill], capped at [burst]. *)
Definition advance (now : Z) (lim : Limiter) : Q :=
  Qmin (inject_Z (burst lim)) (uncapped now lim).

Definition refilled (now : Z) (lim : Limiter) : Limiter :=
  {| limit := limit lim; burst := burst lim; tokens := advance now lim; last := now |}.

(** Modelled from the spec: [Allow()]: refill; if the count is at least 1,
    subtract 1 and admit; otherwise reject and keep the refilled count. *)
Definition Allow (now : Z) (lim : Limiter) : bool * Limiter :=
  let lim' := refilled now lim in
  if Qle_bool 1 (tokens lim')
  then (true, {| limit := limit lim'; burst := burst lim';
                 tokens := tokens lim' - 1; last := last lim' |})
  else (false, lim').

(** A run of [Allow] calls at the instants [times], oldest first: the
    verdicts and the bucket after each call. *)
Fixpoint run (times : list Z) (lim : Limiter) : list (bool * Limiter) :=
  match times with
  | [] => []
  | now :: rest => let r := Allow now lim in r :: run rest r.2
  end.

(** The instants of successive clock readings never go back. *)
Fixpoint monotone_from (t0 : Z) (times : list Z) : Prop :=
  match times with
  | [] => True
  | t :: rest => (t0 <= t)%Z ∧ monotone_from t rest
  end.

(** The token count lies between 0 and the burst capacity. *)
Definition in_range (lim : Limiter) : Prop :=
  0 <= tokens lim ∧ tokens lim <= inject_Z (burst lim).

End rate.

(** ** Package [middleware]: the registry [IPRateLimiter] and its HTTP handler *)

Module middleware.

(** Addresses of the [rate.Limiter] objects on the heap ([*rate.Limiter]). *)
Definition ptr : Type := positive.

(** [Client].  The registry stores [*Client]; each cell is created by
    [AddClient] and referenced from its map slot only, so the slot holds the
    cell's contents and [client.lastSeen = ...] updates the slot. *)
Record Client : Type := mkClient {
  limiter : ptr;
  lastSeen : Z;
}.

Record IPRateLimiter : Type := mkIPRateLimiter {
  clients : gmap string Client;
  mu : RWMutex;
  rate : Q;
  burst : Z;
  expiration : Z;
}.

(** What a call can reach: the wall clock read by [time.Now()], the heap of
    buckets, and the receiver [rl] (the package's global registry). *)
Record World : Type := mkWorld {
  clock : Z;
  heap : gmap ptr rate.Limiter;
  rl : IPRateLimiter;
}.

Definition set_clients (f : gmap string Client → gmap string Client) (w : World) : World :=
  {| clock := clock w; heap := heap w;
     rl := {| clients := f (clients (rl w)); mu := mu (rl w); rate := rate (rl w);
              burst := burst (rl w); expiration := expiration (rl w) |} |}.

Definition get_mu (w : World) : RWMutex := mu (rl w).

Definition set_mu (m : RWMutex) (w : World) : World :=
  {| clock := clock w; heap := heap w;
     rl := {| clients := clients (rl w); mu := m; rate := rate (rl w);
              burst := burst (rl w); expiration := expiration (rl w) |} |}.

Definition set_heap (f : gmap ptr rate.Limiter → gmap ptr rate.Limiter) (w : World) : World :=
  {| clock := clock w; heap := f (heap w); rl := rl w |}.

Definition set_clock (f : Z → Z) (w : World) : World :=
  {| clock := f (clock w); heap := heap w; rl := rl w |}.

(** [time.Now()], [time.Since(t)] and [time.Sleep(d)].  A call takes no time
    of its own: the clock moves only in [Sleep]. *)
Definition time_Now : M World Z := gets clock.

Definition time_Since (t : Z) : M World Z :=
  now <- time_Now ;; ret (time.Sub now t).

Definition time_Sleep (d : Z) : M World unit :=
  modify (set_clock (λ t, t + Z.max 0 d)).

(** [rate.NewLimiter(r, b)]: a new bucket at a fresh address, full, its last
    refill being the instant of its creation. *)
Definition rate_NewLimiter (r : Q) (b : Z) : M World ptr :=
  now <- time_Now ;;
  l <- gets (λ w, fresh (dom (heap w))) ;;
  modify (set_heap (insert l (rate.NewLimiter r b now))) ;;;
  ret l.

(** [limiter.Allow()] on the bucket at address [l].  The bucket guards its
    own state, so the call is one atomic step. *)
Definition Limiter_Allow (l : ptr) : M World bool :=
  now <- time_Now ;;
  o <- gets (λ w, heap w !! l) ;;
  match o with
  | Some lim =>
      modify (set_heap (insert l (rate.Allow now lim).2)) ;;;
      ret (rate.Allow now lim).1
  | None => λ w, Crashed w
  end.

(** [NewIPRateLimiter] *)
Definition NewIPRateLimiter (r : Q) (b : Z) : IPRateLimiter :=
  {| clients := ∅; mu := unlocked; rate := r; burst := b;
     expiration := 1 * time.Hour |}.

(** [AddClient] *)
Definition AddClient (ip : string) : M World ptr :=
  r <- gets (λ w, rate (rl w)) ;;
  b <- gets (λ w, burst (rl w)) ;;
  limiter <- rate_NewLimiter r b ;;
  Lock get_mu set_mu ;;;
  now <- time_Now ;;
  modify (set_clients (insert ip {| limiter := limiter; lastSeen := now |})) ;;;
  Unlock get_mu set_mu ;;;
  ret limiter.

(** [GetLimiter].  The deferred [Unlock] runs once the body has returned. *)
Definition GetLimiter (ip : string) : M World ptr :=
  Lock get_mu set_mu ;;;
  found <- gets (λ w, clients (rl w) !! ip) ;;
  res <- match found with
         | None => AddClient ip
         | Some client =>
             now <- time_Now ;;
             modify (set_clients
                       (insert ip {| limiter := limiter client; lastSeen := now |})) ;;;
             ret (limiter client)
         end ;;
  Unlock get_mu set_mu ;;;
  ret res.

(** [for ip, client := range ... { body }] over the entries the runtime
    yields. *)
Fixpoint for_range {St V} (order : list (string * V))
    (body : string → V → M St unit) : M St unit :=
  match order with
  | [] => ret tt
  | (k, v) :: rest => body k v ;;; for_range rest body
  end.

(** [CleanupStaleClients] *)
Definition CleanupStaleClients (order : list (string * Client)) : M World unit :=
  Lock get_mu set_mu ;;;
  for_range order (λ ip client,
    since <- time_Since (lastSeen client) ;;
    exp <- gets (λ w, expiration (rl w)) ;;
    if exp <? since then modify (set_clients (delete ip)) else ret tt) ;;;
  Unlock get_mu set_mu.

(** The global [limiter], one request per second with a burst of five.
    ([limiter] already names the field of [Client].) *)
Definition global_limiter : IPRateLimiter := NewIPRateLimiter 1 5.

(** One turn of the background loop started by [RateLimitMiddleware]. *)
Definition sweeper_turn (order : list (string * Client)) : M World unit :=
  time_Sleep time.Hour ;;;
  CleanupStaleClients order.

(** *** [net/http] as far as the handler uses it *)

Record Request : Type := mkRequest {
  RemoteAddr : string;
  Header : gmap string (list string);
}.

(** [Header.Get(key)]: the first value stored under [key], or the empty
    string.  The key used below is already in canonical form. *)
Definition Header_Get (h : gmap string (list string)) (key : string) : string :=
  match h !! key with
  | Some (v :: _) => v
  | _ => EmptyString
  end.

(** The response seen so far: the status line, once written, and the body. *)
Record ResponseWriter : Type := mkResponseWriter {
  status : option Z;
  body : string;
}.

Definition StatusTooManyRequests : Z := 429.

Definition newline : string := String (Ascii.ascii_of_nat 10) EmptyString.

(** [http.Error(w, error, code)]: write the status, then the message and a
    newline. *)
Definition http_Error (w : ResponseWriter) (error : string) (code : Z) : ResponseWriter :=
  {| status := match status w with None => Some code | Some c => Some c end;
     body := (body w ++ error ++ newline)%string |}.

Section handlers.
(** State of the rest of the server, reached by the wrapped handler only
    (the store, for instance). *)
Context {D : Type}.

Definition Handler : Type := Request → ResponseWriter → M (World * D) ResponseWriter.

Definition lift {A} (m : M World A) : M (World * D) A := λ s,
  match m s.1 with
  | Done a w => Done a (w, s.2)
  | Blocked w => Blocked (w, s.2)
  | Crashed w => Crashed (w, s.2)
  end.

(** The same for a call on the rest of the server. *)
Definition lift_rest {A} (m : M D A) : M (World * D) A := λ s,
  match m s.2 with
  | Done a d => Done a (s.1, d)
  | Blocked d => Blocked (s.1, d)
  | Crashed d => Crashed (s.1, d)
  end.

(** The identity the handler rate-limits on (the variable [ip]). *)
Definition clientIP (r : Request) : string :=
  let ip := RemoteAddr r in
  let forwardedIP := Header_Get (Header r) "X-Forwarded-For" in
  if bool_decide (forwardedIP ≠ EmptyString) then forwardedIP else ip.

(** The handler returned by [RateLimitMiddleware(next)]. *)
Definition RateLimitMiddleware (next : Handler) : Handler := λ r w,
  ip <- ret (clientIP r) ;;
  limiter <- lift (GetLimiter ip) ;;
  allowed <- lift (Limiter_Allow limiter) ;;
  if negb allowed
  then ret (http_Error w "Rate limit exceeded" StatusTooManyRequests)
  else next r w.

(** Requests served one after the other by handler [h], each with a response
    writer of its own; the status codes written. *)
Fixpoint serve (h : Handler) (reqs : list Request) : M (World * D) (list (option Z)) :=
  match reqs with
  | [] => ret []
  | r :: rest =>
      w <- h r {| status := None; body := EmptyString |} ;;
      codes <- serve h rest ;;
      ret (status w :: codes)
  end.
End handlers.

(** A wrapped handler that writes [key := value] to the store and answers
    200, standing for the store operations the gate protects. *)
Definition StatusOK : Z := 200.

Definition store_set (key value : string) : @Handler main.LunarDB := λ r w,
  lift_rest (main.Set_ key value) ;;;
  ret {| status := match status w with None => Some StatusOK | Some c => Some c end;
         body := (body w ++ "OK")%string |}.

(** A registry built by [NewIPRateLimiter r b] that has come to hold the
    entries [cs] and on which no call is in progress. *)
Definition registry_at_rest (r : Q) (b : Z) (cs : gmap string Client) : IPRateLimiter :=
  {| clients := cs; mu := unlocked; rate := r; burst := b;
     expiration := 1 * time.Hour |}.

(** A call on the registry, as any goroutine of the server may make it. *)
Inductive RegistryCall : Type :=
| CallGetLimiter (ip : string)
| CallAddClient (ip : string)
| CallCleanup (order : list (string * Client)).

Definition attempt (c : RegistryCall) : M World unit :=
  match c with
  | CallGetLimiter ip => GetLimiter ip ;;; ret tt
  | CallAddClient ip => AddClient ip ;;; ret tt
  | CallCleanup order => CleanupStaleClients order
  end.

(** The state left by a series of attempted calls, each made by a goroutine of
    its own, whether the call returns or parks. *)
Fixpoint attempts (calls : list RegistryCall) (w : World) : World :=
  match calls with
  | [] => w
  | c :: rest => attempts rest (final (attempt c w))
  end.

(** In the words of the spec: an entry is swept when its last-seen timestamp
    is older than [now - expiration]. *)
Definition stale (now exp : Z) (c : Client) : bool :=
  bool_decide (lastSeen c < now - exp).

(** Every bucket the registry points to is allocated. *)
Definition heap_ok (w : World) : Prop :=
  ∀ ip c, clients (rl w) !! ip = Some c → is_Some (heap w !! limiter c).

(** The entries of a registry filed under one identity. *)
Definition entries_for (ip : string) (cs : gmap string Client) : list (string * Client) :=
  filter (λ kv, kv.1 = ip) (map_to_list cs).

End middleware.

(** ** Concrete requests and server states used in the scenarios *)

Module scenarios.
Import middleware.

Definition fresh_response : ResponseWriter := {| status := None; body := EmptyString |}.

Definition request_from_address : Request :=
  {| RemoteAddr := "198.51.100.4:51234"; Header := ∅ |}.

(** An address seen for the first time at instant 0, and the entry
    [AddClient] then files for it. *)
Definition visitor : string := "198.51.100.4:51234".
Definition first_entry : Client := {| limiter := 1%positive; lastSeen := 0 |}.

(** The forwarding header is there but empty, and so is the address. *)
Definition request_without_identity : Request :=
  {| RemoteAddr := EmptyString;
     Header := <["X-Forwarded-For"%string := [EmptyString]]> ∅ |}.

(** The forwarding header is not an address at all. *)
Definition request_with_malformed_identity : Request :=
  {| RemoteAddr := "198.51.100.4:51234";
     Header := <["X-Forwarded-For"%string := ["not an address, ;;"%string]]> ∅ |}.

(** A server at instant 5 s: [visitor] was last seen at 4.9 s, when its
    bucket ran empty; an empty store is behind the gate. *)
Definition returning_server : World * main.LunarDB :=
  (mkWorld 5000000000 (<[1%positive := rate.mkLimiter 1 5 0 4900000000]> ∅)
     (registry_at_rest 1 5
        (<[visitor := {| limiter := 1%positive; lastSeen := 4900000000 |}]> ∅)),
   main.NewLunarDB).

(** A server whose registry has just filed [visitor] through [AddClient], at
    instant 0, with an empty store behind the gate. *)
Definition visited_server : World * main.LunarDB :=
  (mkWorld 0 (<[1%positive := rate.NewLimiter 1 5 0]> ∅)
     (registry_at_rest 1 5 (<[visitor := first_entry]> ∅)),
   main.NewLunarDB).

End scenarios.

(** ** Package [main], continued: API keys, handlers and routes *)

Module api.

(** [APIKeyManager]: a [map[string]bool] behind a [sync.RWMutex]. *)
Record APIKeyManager : Type := mkAPIKeyManager {
  keys : gmap string bool;
  mu : RWMutex;
}.

Definition set_keys (f : gmap string bool → gmap string bool) (m : APIKeyManager)
    : APIKeyManager :=
  {| keys := f (keys m); mu := mu m |}.
Definition set_mu (mx : RWMutex) (m : APIKeyManager) : APIKeyManager :=
  {| keys := keys m; mu := mx |}.

Definition NewAPIKeyManager : APIKeyManager := {| keys := ∅; mu := unlocked |}.

(** [m.keys[key] = true] under the write lock. *)
Definition AddKey (key : string) : M APIKeyManager unit :=
  Lock mu set_mu ;;;
  modify (set_keys (insert key true)) ;;;
  Unlock mu set_mu.

(** [return m.keys[key]] under the read lock: [false] for a key not in the
    map. *)
Definition ValidateKey (key : string) : M APIKeyManager bool :=
  RLock mu set_mu ;;;
  v <- gets (λ m, default false (keys m !! key)) ;;
  RUnlock mu set_mu ;;;
  ret v.

(** The two globals of package [main]. *)
Record Server : Type := mkServer {
  db : main.LunarDB;
  keyManager : APIKeyManager;
}.

Definition on_db {A} (m : M main.LunarDB A) : M Server A := λ s,
  match m (db s) with
  | Done a d => Done a {| db := d; keyManager := keyManager s |}
  | Blocked d => Blocked {| db := d; keyManager := keyManager s |}
  | Crashed d => Crashed {| db := d; keyManager := keyManager s |}
  end.

Definition on_keyManager {A} (m : M APIKeyManager A) : M Server A := λ s,
  match m (keyManager s) with
  | Done a k => Done a {| db := db s; keyManager := k |}
  | Blocked k => Blocked {| db := db s; keyManager := k |}
  | Crashed k => Crashed {| db := db s; keyManager := k |}
  end.

(** [main], up to [r.Run]: the globals are created and the key returned by
    [GenerateKey] is registered.  [initialKey] is that key. *)
Definition main_init (initialKey : string) : M Server unit :=
  on_keyManager (AddKey initialKey).

Definition fresh_server : Server :=
  {| db := main.NewLunarDB; keyManager := NewAPIKeyManager |}.

(** A server on which no call is in progress, with registered keys [ks] and
    store contents [d]. *)
Definition server_at_rest (ks : gmap string bool) (d : gmap string string) : Server :=
  {| db := main.at_rest d; keyManager := {| keys := ks; mu := unlocked |} |}.

(** *** [gin] as far as the handlers use it *)

(** The request body after JSON decoding into the handler's struct: either
    the decoder's error, or the two string fields, empty when the object
    lacks them. *)
Inductive JSONBody : Type :=
| Undecodable (err : string)
| Object (Key Value : string).

(** What [ShouldBindJSON] can report: the decoder's error, or the fields that
    fail their [binding:"required"] tag. *)
Inductive BindError : Type :=
| DecodeError (err : string)
| RequiredFailed (fields : list string).

(** [binding:"required"] on a string field rejects the zero value. *)
Definition ShouldBindJSON (body : JSONBody) : BindError + string * string :=
  match body with
  | Undecodable err => inl (DecodeError err)
  | Object key value =>
      match (if decide (key = EmptyString) then ["Key"%string] else [])
            ++ (if decide (value = EmptyString) then ["Value"%string] else []) with
      | [] => inr (key, value)
      | failed => inl (RequiredFailed failed)
      end
  end.

(** What a handler reads from its [*gin.Context].  [Header] maps the name
    under which a handler asks for a header to the values the request
    carries under that name ([net/http] matches header names regardless of
    case). *)
Record Context : Type := mkContext {
  Header : gmap string (list string);
  Params : gmap string string;
  Body : JSONBody;
}.

Definition GetHeader (c : Context) (key : string) : string :=
  middleware.Header_Get (Header c) key.

(** [c.Param(key)]: the empty string when the route has no such parameter. *)
Definition Param (c : Context) (key : string) : string :=
  default EmptyString (Params c !! key).

(** The values put in a [gin.H]. *)
Inductive JValue : Type :=
| JString (s : string)
| JStrings (l : list string)
| JError (e : BindError).   (* [err.Error()] of a binding error *)

(** What [c.JSON(code, obj)] writes. *)
Record Response : Type := mkResponse {
  code : Z;
  payload : gmap string JValue;
}.

Definition StatusOK : Z := 200.
Definition StatusBadRequest : Z := 400.
Definition StatusUnauthorized : Z := 401.
Definition StatusNotFound : Z := 404.

(** [APIKeyMiddleware(keyManager)].  [next] is the rest of the chain, run by
    [c.Next()].  The [||] does not call [ValidateKey] on an empty key. *)
Definition APIKeyMiddleware (c : Context) (next : M Server Response) : M Server Response :=
  let key := GetHeader c "X-API-Key" in
  if decide (key = EmptyString)
  then ret {| code := StatusUnauthorized;
              payload := {["error"%string := JString "Invalid API key"]} |}
  else
    valid <- on_keyManager (ValidateKey key) ;;
    if negb valid
    then ret {| code := StatusUnauthorized;
                payload := {["error"%string := JString "Invalid API key"]} |}
    else next.

Definition setHandler (c : Context) : M Server Response :=
  match ShouldBindJSON (Body c) with
  | inl err =>
      ret {| code := StatusBadRequest; payload := {["error"%string := JError err]} |}
  | inr (key, value) =>
      on_db (main.Set_ key value) ;;;
      ret {| code := StatusOK; payload := {["result"%string := JString "OK"]} |}
  end.

Definition getHandler (c : Context) : M Server Response :=
  let key := Param c "key" in
  r <- on_db (main.Get key) ;;
  if negb r.2
  then ret {| code := StatusNotFound;
              payload := {["error"%string := JString "Key not found"]} |}
  else ret {| code := StatusOK; payload := {["result"%string := JString r.1]} |}.

Definition delHandler (c : Context) : M Server Response :=
  let key := Param c "key" in
  existed <- on_db (main.Del key) ;;
  if negb existed
  then ret {| code := StatusNotFound;
              payload := {["error"%string := JString "Key not found"]} |}
  else ret {| code := StatusOK; payload := {["result"%string := JString "OK"]} |}.

(** [order] is what the runtime yields when [Keys] ranges over the map. *)
Definition keysHandler (order : list (string * string)) (c : Context) : M Server Response :=
  keys <- on_db (main.Keys order) ;;
  ret {| code := StatusOK; payload := {["keys"%string := JStrings keys]} |}.

Definition healthHandler (c : Context) : M Server Response :=
  ret {| code := StatusOK; payload := {["status"%string := JString "healthy"]} |}.

Definition queryHandler (c : Context) : M Server Response :=
  ret {| code := StatusOK;
         payload := {["message"%string := JString "Query endpoint not implemented yet"]} |}.

Definition schemaHandler (c : Context) : M Server Response :=
  ret {| code := StatusOK;
         payload := {["message"%string := JString "Schema endpoint not implemented yet"]} |}.

(** The routes registered by [setupRoutes]. *)
Inductive Route : Type :=
| GET_root           (* GET / *)
| GET_health         (* GET /health *)
| POST_set           (* POST /api/v1/set *)
| GET_get            (* GET /api/v1/get/:key *)
| DELETE_del         (* DELETE /api/v1/del/:key *)
| GET_keys           (* GET /api/v1/keys *)
| POST_query         (* POST /api/v1/query *)
| POST_schema.       (* POST /api/v1/schema *)

(** The routes of the group [/api/v1], which runs [APIKeyMiddleware] first. *)
Definition protected (r : Route) : bool :=
  match r with
  | GET_root | GET_health => false
  | _ => true
  end.

(** A request as the router hands it over: the route it matched, the context,
    and the order in which the runtime would range over the store. *)
Record Request : Type := mkRequest {
  route : Route;
  context : Context;
  range_order : list (string * string);
}.

(** The handler chain [setupRoutes] attaches to each route. *)
Definition serve (req : Request) : M Server Response :=
  let c := context req in
  match route req with
  | GET_root =>
      ret {| code := StatusOK;
             payload := {["message"%string := JString "Welcome to LunarDB API"]} |}
  | GET_health => healthHandler c
  | POST_set => APIKeyMiddleware c (setHandler c)
  | GET_get => APIKeyMiddleware c (getHandler c)
  | DELETE_del => APIKeyMiddleware c (delHandler c)
  | GET_keys => APIKeyMiddleware c (keysHandler (range_order req) c)
  | POST_query => APIKeyMiddleware c (queryHandler c)
  | POST_schema => APIKeyMiddleware c (schemaHandler c)
  end.

(** Requests served one after the other. *)
Fixpoint serve_all (reqs : list Request) : M Server (list Response) :=
  match reqs with
  | [] => ret []
  | req :: rest => r <- serve req ;; rs <- serve_all rest ;; ret (r :: rs)
  end.

(** The key a request presents. *)
Definition presented_key (req : Request) : string :=
  GetHeader (context req) "X-API-Key".

(** A request is authorised under the registered keys [ks] when it presents
    a non-empty key that [ks] maps to [true]. *)
Definition authorised (ks : gmap string bool) (req : Request) : bool :=
  bool_decide (presented_key req ≠ EmptyString)
  && default false (ks !! presented_key req).

Definition unauthorized : Response :=
  {| code := StatusUnauthorized;
     payload := {["error"%string := JString "Invalid API key"]} |}.

(** What a request does to the contents of the store. *)
Definition store_effect (req : Request) (d : gmap string string) : gmap string string :=
  match route req with
  | POST_set =>
      match ShouldBindJSON (Body (context req)) with
      | inr (key, value) => <[key := value]> d
      | inl _ => d
      end
  | DELETE_del => delete (Param (context req) "key") d
  | _ => d
  end.

(** The store after a series of requests under the keys [ks]. *)
Definition store_after (ks : gmap string bool) (reqs : list Request)
    (d : gmap string string) : gmap string string :=
  foldl (λ m req, if authorised ks req then store_effect req m else m) d reqs.

(** No key and no value of the store is the empty string. *)
Definition no_empty_string (d : gmap string string) : Prop :=
  ∀ k v, d !! k = Some v → k ≠ EmptyString ∧ v ≠ EmptyString.

(** Requests of a client presenting [apikey], as the handlers receive them
    once the router has matched the route.  For [get_request] and
    [del_request], [key] is what the router bound to [:key]; which strings
    the router binds is said by [routing.is_segment] below. *)
Definition with_key (apikey : string) : gmap string (list string) :=
  {["X-API-Key"%string := [apikey]]}.

Definition set_request (apikey key value : string) : Request :=
  {| route := POST_set;
     context := {| Header := with_key apikey; Params := ∅; Body := Object key value |};
     range_order := [] |}.

Definition get_request (apikey key : string) : Request :=
  {| route := GET_get;
     context := {| Header := with_key apikey; Params := {["key"%string := key]};
                   Body := Object EmptyString EmptyString |};
     range_order := [] |}.

Definition del_request (apikey key : string) : Request :=
  {| route := DELETE_del;
     context := {| Header := with_key apikey; Params := {["key"%string := key]};
                   Body := Object EmptyString EmptyString |};
     range_order := [] |}.

End api.

(** ** Sequences of calls on the store *)

Module store_calls.

Inductive Call : Type :=
| CallSet (key value : string)
| CallGet (key : string)
| CallDel (key : string)
| CallKeys (order : list (string * string)).

Inductive Answer : Type :=
| Stored
| Got (value : string) (found : bool)
| Deleted (existed : bool)
| Listed (keys : list string).

Definition call (c : Call) : M main.LunarDB Answer :=
  match c with
  | CallSet key value => main.Set_ key value ;;; ret Stored
  | CallGet key => r <- main.Get key ;; ret (Got r.1 r.2)
  | CallDel key => existed <- main.Del key ;; ret (Deleted existed)
  | CallKeys order => keys <- main.Keys order ;; ret (Listed keys)
  end.

Fixpoint calls (cs : list Call) : M main.LunarDB (list Answer) :=
  match cs with
  | [] => ret []
  | c :: rest => a <- call c ;; more <- calls rest ;; ret (a :: more)
  end.

(** The same calls on a plain finite map, as a reference: what the map
    becomes, and what it answers (the value under a key if there is one,
    whether a key was there, the set of its keys). *)
Definition map_after (c : Call) (d : gmap string string) : gmap string string :=
  match c with
  | CallSet key value => <[key := value]> d
  | CallDel key => delete key d
  | CallGet _ | CallKeys _ => d
  end.

Inductive MapAnswer : Type :=
| MapStored
| MapGot (value : option string)
| MapDeleted (existed : bool)
| MapKeys (keys : gset string).

Definition map_answer (c : Call) (d : gmap string string) : MapAnswer :=
  match c with
  | CallSet _ _ => MapStored
  | CallGet key => MapGot (d !! key)
  | CallDel key => MapDeleted (bool_decide (key ∈ dom d))
  | CallKeys _ => MapKeys (dom d)
  end.

Fixpoint map_answers (cs : list Call) (d : gmap string string) : list MapAnswer :=
  match cs with
  | [] => []
  | c :: rest => map_answer c d :: map_answers rest (map_after c d)
  end.

(** An answer of the store agrees with the answer of the reference map: the
    same value and flag ([("", false)] for no value), the same flag, a
    listing without repetition of exactly the keys of the set. *)
Definition agrees (a : Answer) (m : MapAnswer) : Prop :=
  match a, m with
  | Stored, MapStored => True
  | Got value found, MapGot (Some x) => value = x ∧ found = true
  | Got value found, MapGot None => value = EmptyString ∧ found = false
  | Deleted existed, MapDeleted existed' => existed = existed'
  | Listed keys, MapKeys ks => NoDup keys ∧ ∀ k, k ∈ keys ↔ k ∈ ks
  | _, _ => False
  end.

(** Every [Keys] call of the series comes with an order in which the
    runtime may range over the store as it is at that call. *)
Fixpoint ranged (cs : list Call) (d : gmap string string) : Prop :=
  match cs with
  | [] => True
  | c :: rest =>
      match c with CallKeys order => range_of d order | _ => True end
      ∧ ranged rest (map_after c d)
  end.

End store_calls.

(** ** Package [strings]: [Split] on a one-byte separator *)

Module gostrings.

(** [strings.Split(s, sep)] for a separator [sep] of one byte: the pieces of
    [s] between the separators, [[s]] when there is none. *)
Fixpoint Split (s : string) (sep : Ascii.ascii) : list string :=
  match s with
  | EmptyString => [EmptyString]
  | String ch rest =>
      if Ascii.eqb ch sep then EmptyString :: Split rest sep
      else match Split rest sep with
           | piece :: pieces => String ch piece :: pieces
           | [] => [String ch EmptyString]
           end
  end.

(** [strings.Join(pieces, sep)] *)
Fixpoint Join (pieces : list string) (sep : Ascii.ascii) : string :=
  match pieces with
  | [] => EmptyString
  | [piece] => piece
  | piece :: rest => (piece ++ String sep (Join rest sep))%string
  end.

(** The byte [ch] occurs in [s]. *)
Fixpoint contains (s : string) (ch : Ascii.ascii) : bool :=
  match s with
  | EmptyString => false
  | String c rest => Ascii.eqb c ch || contains rest ch
  end.

Definition space : Ascii.ascii :=
  Ascii.Ascii false false false false false true false false.

End gostrings.

(** ** The router, for the two routes with a parameter *)

Module routing.

Definition slash : Ascii.ascii :=
  Ascii.Ascii true true true true false true false false.

(** The router matches [:key] against one path segment, not empty: a key
    that is empty or holds a slash reaches neither [/api/v1/get/:key] nor
    [/api/v1/del/:key]. *)
Definition is_segment (key : string) : bool :=
  negb (bool_decide (key = EmptyString)) && negb (gostrings.contains key slash).

(** What the router hands over for [GET /api/v1/get/<key>] and for
    [DELETE /api/v1/del/<key>]: nothing when no route matches. *)
Definition routed_get (apikey key : string) : option api.Request :=
  if is_segment key then Some (api.get_request apikey key) else None.

Definition routed_del (apikey key : string) : option api.Request :=
  if is_segment key then Some (api.del_request apikey key) else None.

(** Requests served one after the other; a request that matched no route is
    answered by the router itself (404 page not found) and reaches no
    handler: it has no answer here. *)
Fixpoint serve_routed (reqs : list (option api.Request))
    : M api.Server (list (option api.Response)) :=
  match reqs with
  | [] => ret []
  | None :: rest => rs <- serve_routed rest ;; ret (None :: rs)
  | Some req :: rest =>
      r <- api.serve req ;; rs <- serve_routed rest ;; ret (Some r :: rs)
  end.

End routing.

(** ** Package [middleware], continued: [AuthMiddleware] *)

Module auth.
Import middleware.

(** What [jwt.Parse] returns: an error, or a token with its [Valid] flag. *)
Inductive Parsed : Type :=
| ParseError
| Token (Valid : bool).

Definition StatusUnauthorized : Z := 401.

Section AuthMiddleware.
Context {St : Type}.
(** [jwt.Parse] with the key function of the handler (HMAC only, fixed
    secret), as a function of the token string. *)
Variable jwt_Parse : string → Parsed.

Definition AuthMiddleware (next : Request → ResponseWriter → M St ResponseWriter)
    : Request → ResponseWriter → M St ResponseWriter := λ r w,
  let authHeader := Header_Get (Header r) "Authorization" in
  if decide (authHeader = EmptyString)
  then ret (http_Error w "Authorization header required" StatusUnauthorized)
  else
    let bearerToken := gostrings.Split authHeader gostrings.space in
    match bearerToken with
    | [scheme; tokenString] =>
        if decide (scheme ≠ "Bearer"%string)
        then ret (http_Error w "Invalid authorization format" StatusUnauthorized)
        else
          match jwt_Parse tokenString with
          | ParseError => ret (http_Error w "Invalid token" StatusUnauthorized)
          | Token valid =>
              if negb valid
              then ret (http_Error w "Invalid token" StatusUnauthorized)
              else next r w
          end
    | _ => ret (http_Error w "Invalid authorization format" StatusUnauthorized)
    end.
End AuthMiddleware.

End auth.

(** ** Calls on the registry made by the package itself *)

Module registry_use.
Import middleware.

(** The handler calls [GetLimiter] and the background loop calls
    [CleanupStaleClients]; nothing in the package calls [AddClient] except
    [GetLimiter] itself. *)
Definition from_the_package (c : RegistryCall) : bool :=
  match c with
  | CallAddClient _ => false
  | CallGetLimiter _ | CallCleanup _ => true
  end.


(** One turn of the background loop, [time.Sleep(time.Hour)] then
    [CleanupStaleClients], when the sleep lasts [slept]: [Sleep] pauses for
    at least the duration asked. *)
Definition sweeper_turn_slept (slept : Z) (order : list (string * Client)) : M World unit :=
  time_Sleep slept ;;;
  CleanupStaleClients order.

End registry_use.


(** * Running calls *)

Section running.
Context {St A B : Type}.
Implicit Types (m : M St A) (f : A → M St B).

Lemma bind_Done m f s a s' : m s = Done a s' → bind m f s = f a s'.
Proof. unfold bind. by intros ->. Qed.

Lemma bind_Blocked m f s s' : m s = Blocked s' → bind m f s = Blocked s'.
Proof. unfold bind. by intros ->. Qed.

Lemma bind_Crashed m f s s' : m s = Crashed s' → bind m f s = Crashed s'.
Proof. unfold bind. by intros ->. Qed.
End running.

(** * Properties of the store *)

Section store.
Import main.
Implicit Types (d : gmap string string) (k v : string).

Lemma Set_at_rest d k v :
  Set_ k v (at_rest d) = Done tt (at_rest (<[k:=v]> d)).
Proof. reflexivity. Qed.

Lemma Get_at_rest d k :
  Get k (at_rest d) =
  Done (match d !! k with Some v => (v, true) | None => (EmptyString, false) end)
       (at_rest d).
Proof. reflexivity. Qed.

Lemma Del_at_rest d k :
  Del k (at_rest d) = Done (bool_decide (is_Some (d !! k))) (at_rest (delete k d)).
Proof.
  unfold Del, bind, Lock, Unlock, gets, modify, ret, at_rest; simpl.
  case_bool_decide as Hk; simpl; [done|].
  rewrite delete_id; [done|].
  by apply eq_None_not_Some.
Qed.

Lemma foldl_append_keys (order : list (string * string)) (acc : list string) :
  foldl (λ keys kv, keys ++ [kv.1]) acc order = acc ++ order.*1.
Proof.
  revert acc. induction order as [|kv order IH]; intros acc; simpl.
  - by rewrite app_nil_r.
  - rewrite IH, <- app_assoc. done.
Qed.

Lemma Keys_at_rest d order :
  Keys order (at_rest d) = Done (order.*1) (at_rest d).
Proof.
  unfold Keys, bind, RLock, RUnlock, ret, at_rest; simpl.
  by rewrite foldl_append_keys.
Qed.

Lemma range_of_keys d order :
  range_of d order → NoDup (order.*1) ∧ ∀ k, k ∈ order.*1 ↔ is_Some (d !! k).
Proof.
  unfold range_of. intros Hperm. split.
  - rewrite Hperm. apply NoDup_fst_map_to_list.
  - intros k. rewrite Hperm, list_elem_of_fmap. split.
    + intros [[k' v] [-> Hin]]. apply elem_of_map_to_list in Hin. by exists v.
    + intros [v Hv]. exists (k, v). split; [done|]. by apply elem_of_map_to_list.
Qed.
End store.

Section store_claims.
Import main.
Implicit Types (d : gmap string string) (k v : string) (db : LunarDB).

(** C3.  Store round trip, from any store on which no call is in progress:
    [Get k] right after [Set k v] returns [(v, true)]; [Get k] right after
    [Del k] returns [("", false)]; [Del k] returns whether [k] was present
    and leaves the map without [k]; on a store without [k] it returns
    [false] and leaves the store as it was, so that the second of two
    consecutive [Del k] returns [false]. *)
Theorem store_round_trip d k v :
  (Set_ k v ;;; Get k) (at_rest d) = Done (v, true) (at_rest (<[k:=v]> d))
  ∧ (Del k ;;; Get k) (at_rest d) = Done (EmptyString, false) (at_rest (delete k d))
  ∧ Del k (at_rest d) = Done (bool_decide (is_Some (d !! k))) (at_rest (delete k d))
  ∧ Del k (at_rest (delete k d)) = Done false (at_rest (delete k d))
  ∧ (Del k ;;; Del k) (at_rest d) = Done false (at_rest (delete k d)).
Proof.
  assert (Habsent : Del k (at_rest (delete k d)) = Done false (at_rest (delete k d))).
  { rewrite Del_at_rest, delete_delete_eq, lookup_delete_eq.
    rewrite bool_decide_eq_false_2; [done|]. by intros [? ?]. }
  repeat split.
  - rewrite (bind_Done _ _ _ _ _ (Set_at_rest d k v)), Get_at_rest.
    by rewrite lookup_insert_eq.
  - rewrite (bind_Done _ _ _ _ _ (Del_at_rest d k)), Get_at_rest.
    by rewrite lookup_delete_eq.
  - apply Del_at_rest.
  - exact Habsent.
  - rewrite (bind_Done _ _ _ _ _ (Del_at_rest d k)). exact Habsent.
Qed.



Lemma read_only_bind {A B} (m : M LunarDB A) (f : A → M LunarDB B) :
  read_only m → (∀ a, read_only (f a)) → read_only (bind m f).
Proof.
  intros Hm Hf db. unfold bind. specialize (Hm db).
  destruct (m db) as [a db'| |]; simpl in *; [|done..].
  by rewrite Hf.
Qed.

Lemma read_only_ret {A} (a : A) : read_only (ret a).
Proof. by intros db. Qed.

Lemma read_only_RLock : read_only (RLock mu set_mu).
Proof. intros db. unfold RLock. by destruct (try_RLock (mu db)). Qed.

Lemma read_only_RUnlock : read_only (RUnlock mu set_mu).
Proof. intros db. unfold RUnlock. by destruct (try_RUnlock (mu db)). Qed.

Lemma read_only_Get k : read_only (Get k).
Proof.
  unfold Get. apply read_only_bind; [apply read_only_RLock|intros _].
  apply read_only_bind; [by intros db|intros r].
  apply read_only_bind; [apply read_only_RUnlock|intros _].
  apply read_only_ret.
Qed.

Lemma read_only_Keys order : read_only (Keys order).
Proof.
  unfold Keys. apply read_only_bind; [apply read_only_RLock|intros _].
  apply read_only_bind; [apply read_only_ret|intros r].
  apply read_only_bind; [apply read_only_RUnlock|intros _].
  apply read_only_ret.
Qed.

Lemma read_only_read c : read_only (read c).
Proof.
  destruct c; simpl.
  - apply read_only_bind; [apply read_only_Get|intros; apply read_only_ret].
  - apply read_only_bind; [apply read_only_Keys|intros; apply read_only_ret].
Qed.

Lemma reads_at_rest d cs : ∃ rs, reads cs (at_rest d) = Done rs (at_rest d).
Proof.
  induction cs as [|c cs [rs IH]]; simpl.
  - by exists [].
  - destruct c as [key|order]; simpl.
    + erewrite bind_Done; [|erewrite bind_Done; [reflexivity|apply Get_at_rest]].
      erewrite bind_Done; [|exact IH]. by eexists.
    + erewrite bind_Done; [|erewrite bind_Done; [reflexivity|apply Keys_at_rest]].
      erewrite bind_Done; [|exact IH]. by eexists.
Qed.

(** C10.  [Get] and [Keys] are read-only: after any sequence of [Get] and
    [Keys] calls the store maps keys to values exactly as before; on a
    store at rest every call of the sequence returns and the store is left
    at rest with the same map. *)
Theorem reads_leave_store db cs :
  data (final (reads cs db)) = data db
  ∧ ∃ rs, reads cs (at_rest (data db)) = Done rs (at_rest (data db)).
Proof.
  split; [|apply reads_at_rest].
  revert db. induction cs as [|c cs IH]; [done|].
  change (read_only (reads (c :: cs))). simpl.
  apply read_only_bind; [apply read_only_read|intros r].
  apply read_only_bind; [exact IH|intros rs; apply read_only_ret].
Qed.
End store_claims.

(** * Properties of the registry *)

Section registry.
Import middleware.
Implicit Types (cs : gmap string Client) (hp : gmap ptr rate.Limiter).
Implicit Types (ip : string) (c : Client) (m : RWMutex) (t e b : Z) (r : Q).

Lemma AddClient_unlocked t hp cs r b e ip :
  AddClient ip (mkWorld t hp (mkIPRateLimiter cs unlocked r b e)) =
  Done (fresh (dom hp))
       (mkWorld t (<[fresh (dom hp) := rate.NewLimiter r b t]> hp)
          (mkIPRateLimiter
             (<[ip := {| limiter := fresh (dom hp); lastSeen := t |}]> cs)
             unlocked r b e)).
Proof. reflexivity. Qed.

(** Called while its caller holds the write lock, [AddClient] allocates the
    bucket and then parks in [Lock]. *)
Lemma AddClient_locked t hp cs m r b e ip :
  writer m = true →
  AddClient ip (mkWorld t hp (mkIPRateLimiter cs m r b e)) =
  Blocked (mkWorld t (<[fresh (dom hp) := rate.NewLimiter r b t]> hp)
             (mkIPRateLimiter cs m r b e)).
Proof.
  intros Hm. destruct m as [wr n p]. simpl in Hm. subst wr. reflexivity.
Qed.

Lemma GetLimiter_present t hp cs r b e ip c :
  cs !! ip = Some c →
  GetLimiter ip (mkWorld t hp (mkIPRateLimiter cs unlocked r b e)) =
  Done (limiter c)
       (mkWorld t hp
          (mkIPRateLimiter (<[ip := {| limiter := limiter c; lastSeen := t |}]> cs)
             unlocked r b e)).
Proof.
  intros Hc. unfold GetLimiter, bind, Lock, gets. simpl. by rewrite Hc.
Qed.

Lemma GetLimiter_absent t hp cs r b e ip :
  cs !! ip = None →
  GetLimiter ip (mkWorld t hp (mkIPRateLimiter cs unlocked r b e)) =
  Blocked (mkWorld t (<[fresh (dom hp) := rate.NewLimiter r b t]> hp)
             (mkIPRateLimiter cs write_locked r b e)).
Proof.
  intros Hc. unfold GetLimiter, bind at 1, Lock. simpl.
  unfold bind at 1, gets. simpl. rewrite Hc.
  erewrite bind_Blocked; [done|]. by apply AddClient_locked.
Qed.

(** While the write lock is held, no call on the registry gets past its
    [Lock], and none releases it. *)
Lemma GetLimiter_locked t hp cs m r b e ip :
  writer m = true →
  GetLimiter ip (mkWorld t hp (mkIPRateLimiter cs m r b e)) =
  Blocked (mkWorld t hp (mkIPRateLimiter cs m r b e)).
Proof.
  intros Hm. destruct m as [wr n p]. simpl in Hm. subst wr. reflexivity.
Qed.

Lemma CleanupStaleClients_locked t hp cs m r b e order :
  writer m = true →
  CleanupStaleClients order (mkWorld t hp (mkIPRateLimiter cs m r b e)) =
  Blocked (mkWorld t hp (mkIPRateLimiter cs m r b e)).
Proof.
  intros Hm. destruct m as [wr n p]. simpl in Hm. subst wr. reflexivity.
Qed.

(** A map files at most one entry under a key. *)
Lemma entries_for_at_most_one ip cs : (length (entries_for ip cs) ≤ 1)%nat.
Proof.
  unfold entries_for.
  destruct (filter (λ kv, kv.1 = ip) (map_to_list cs)) as [|[k1 c1] [|[k2 c2] l]] eqn:Hf;
    simpl; [lia..|exfalso].
  assert (Hnd : NoDup (filter (λ kv : string * Client, kv.1 = ip) (map_to_list cs)))
    by apply NoDup_filter, NoDup_map_to_list.
  assert (H1 : (k1, c1) ∈ filter (λ kv : string * Client, kv.1 = ip) (map_to_list cs))
    by (rewrite Hf; set_solver).
  assert (H2 : (k2, c2) ∈ filter (λ kv : string * Client, kv.1 = ip) (map_to_list cs))
    by (rewrite Hf; set_solver).
  apply list_elem_of_filter in H1 as [E1 H1], H2 as [E2 H2]. simpl in *. subst k1 k2.
  apply elem_of_map_to_list in H1, H2.
  assert (c1 = c2) by congruence. subst c2.
  rewrite Hf in Hnd. apply NoDup_cons in Hnd as [Hnot _]. set_solver.
Qed.

Lemma GetLimiter_twice_present t hp cs r b e ip c :
  (l1 <- GetLimiter ip ;; l2 <- GetLimiter ip ;; ret (l1, l2))
    (mkWorld t hp (mkIPRateLimiter (<[ip := c]> cs) unlocked r b e)) =
  Done (limiter c, limiter c)
       (mkWorld t hp
          (mkIPRateLimiter (<[ip := {| limiter := limiter c; lastSeen := t |}]> cs)
             unlocked r b e)).
Proof.
  erewrite bind_Done; [|apply GetLimiter_present, lookup_insert_eq].
  erewrite bind_Done; [|apply GetLimiter_present, lookup_insert_eq].
  unfold ret. simpl. by rewrite !insert_insert_eq.
Qed.
End registry.

Section registry_claims.
Import middleware.
Implicit Types (cs : gmap string Client) (hp : gmap ptr rate.Limiter).
Implicit Types (ip : string) (c : Client) (m : RWMutex) (t e b : Z) (r : Q).

Lemma attempt_locked (call : RegistryCall) w :
  writer (mu (rl w)) = true →
  returned (attempt call w) = false ∧ writer (mu (rl (final (attempt call w)))) = true.
Proof.
  destruct w as [t hp [cs m r b e]]. simpl. intros Hm.
  destruct call as [ip|ip|order]; simpl.
  - erewrite bind_Blocked; [|by apply GetLimiter_locked]. done.
  - erewrite bind_Blocked; [|by apply AddClient_locked]. done.
  - rewrite CleanupStaleClients_locked; done.
Qed.

(** Once the write lock is held by a parked goroutine, whatever calls the
    other goroutines make, the lock is still held afterwards. *)
Lemma attempts_locked calls w :
  writer (mu (rl w)) = true → writer (mu (rl (attempts calls w))) = true.
Proof.
  revert w. induction calls as [|call calls IH]; intros w Hm; [done|].
  simpl. apply IH. by apply attempt_locked.
Qed.

(** C1 (defect in the code).  [GetLimiter] on an identity with no entry does
    not return: it takes the write lock, calls [AddClient], and [AddClient]
    parks in [Lock] on the lock its caller holds.  The lock is never released:
    the entry is never inserted, and every later call on the registry, for any
    identity and after any calls by others, parks as well.  The first request
    to the fresh global registry is such a call. *)
Theorem GetLimiter_first_time_parks :
  (∀ t hp cs r b e ip,
     ∃ w, GetLimiter ip (mkWorld t hp (mkIPRateLimiter (delete ip cs) unlocked r b e))
          = Blocked w
          ∧ writer (mu (rl w)) = true
          ∧ clients (rl w) !! ip = None
          ∧ ∀ calls ip', returned (GetLimiter ip' (attempts calls w)) = false)
  ∧ GetLimiter "203.0.113.7" (mkWorld 0 ∅ global_limiter)
    = Blocked (mkWorld 0 {[1%positive := rate.NewLimiter 1 5 0]}
                 (mkIPRateLimiter ∅ write_locked 1 5 (1 * time.Hour))).
Proof.
  split.
  - intros t hp cs r b e ip. eexists. split_and!.
    + apply GetLimiter_absent, lookup_delete_eq.
    + done.
    + simpl. apply lookup_delete_eq.
    + intros calls ip'.
      match goal with |- context [attempts calls ?w0] =>
        pose proof (attempts_locked calls w0 eq_refl) as Hm;
        destruct (attempts calls w0) as [t' hp' [cs' m' r' b' e']] end.
      simpl in Hm. by rewrite GetLimiter_locked.
  - unfold global_limiter, NewIPRateLimiter.
    rewrite GetLimiter_absent by done. reflexivity.
Qed.

(** C2 (defect in the code, the one of C1).  A registry files at most one
    entry under an identity, and two consecutive [GetLimiter] calls on an
    identity that has an entry return the same bucket address; but on an
    identity without an entry the first of the two calls never returns, so no
    bucket is returned at all. *)
Theorem GetLimiter_twice :
  (∀ ip cs, (length (entries_for ip cs) ≤ 1)%nat)
  ∧ (∀ t hp cs r b e ip c,
       ∃ w, (l1 <- GetLimiter ip ;; l2 <- GetLimiter ip ;; ret (l1, l2))
              (mkWorld t hp (mkIPRateLimiter (<[ip := c]> cs) unlocked r b e))
            = Done (limiter c, limiter c) w)
  ∧ (∀ t hp cs r b e ip,
       returned ((l1 <- GetLimiter ip ;; l2 <- GetLimiter ip ;; ret (l1, l2))
                   (mkWorld t hp (mkIPRateLimiter (delete ip cs) unlocked r b e)))
       = false)
  ∧ returned ((l1 <- GetLimiter "203.0.113.7" ;; l2 <- GetLimiter "203.0.113.7" ;;
               ret (l1, l2)) (mkWorld 0 ∅ global_limiter)) = false.
Proof.
  split_and!.
  - intros. apply entries_for_at_most_one.
  - intros. eexists. apply GetLimiter_twice_present.
  - intros. erewrite bind_Blocked; [done|]. apply GetLimiter_absent, lookup_delete_eq.
  - erewrite bind_Blocked; [done|]. by apply GetLimiter_absent.
Qed.
End registry_claims.

(** * The expiry sweep *)

Section sweep.
Import middleware scenarios.
Implicit Types (cs : gmap string Client) (hp : gmap ptr rate.Limiter).
Implicit Types (ip : string) (c : Client) (m : RWMutex) (t e b : Z) (r : Q).
Implicit Types (order : list (string * Client)).

(** The saturation of [Sub] does not change the comparison with one hour. *)
Lemma since_exceeds_hour t u :
  (1 * time.Hour <? time.Sub t u) = bool_decide (u < t - time.Hour).
Proof.
  unfold time.Sub, time.minDuration, time.maxDuration, time.Hour, time.Minute,
    time.Second, time.Nanosecond.
  repeat case_match; case_bool_decide; lia.
Qed.

(** The loop of [CleanupStaleClients] deletes, one after the other, the
    yielded entries whose age exceeds the expiration. *)
Lemma sweep_loop order t hp cs m r b e :
  for_range order (λ ip client,
    since <- time_Since (lastSeen client) ;;
    exp <- gets (λ w, expiration (rl w)) ;;
    if exp <? since then modify (set_clients (delete ip)) else ret tt)
    (mkWorld t hp (mkIPRateLimiter cs m r b e)) =
  Done tt
    (mkWorld t hp
       (mkIPRateLimiter
          (foldl (λ acc kv, if e <? time.Sub t (lastSeen kv.2)
                            then delete kv.1 acc else acc) cs order)
          m r b e)).
Proof.
  revert cs. induction order as [|[ip c] order IH]; intros cs; [done|].
  cbn [for_range foldl fst snd].
  erewrite bind_Done; [apply IH|].
  unfold time_Since, time_Now, bind, gets, ret; cbn.
  by destruct (e <? time.Sub t (lastSeen c)).
Qed.

Lemma sweep_fold_lookup (P : Client → bool) order cs ip :
  foldl (λ acc kv, if P kv.2 then delete kv.1 acc else acc) cs order !! ip =
  if bool_decide (Exists (λ kv, kv.1 = ip ∧ P kv.2 = true) order)
  then None else cs !! ip.
Proof.
  revert cs. induction order as [|[k c] order IH]; intros cs; cbn [foldl fst snd].
  - rewrite bool_decide_eq_false_2; [done|]. by intros ?%Exists_nil.
  - rewrite IH. destruct (P c) eqn:HP.
    + destruct (decide (k = ip)) as [->|Hne].
      * rewrite lookup_delete_eq.
        rewrite (bool_decide_eq_true_2 (Exists _ ((ip, c) :: order)));
          [by case_bool_decide|].
        apply Exists_cons. by left.
      * rewrite lookup_delete_ne by done.
        apply (f_equal (λ x : bool, if x then None else cs !! ip)).
        apply bool_decide_ext. rewrite Exists_cons. simpl.
        split; [tauto|]. intros [[? _]|?]; [congruence|done].
    + apply (f_equal (λ x : bool, if x then None else cs !! ip)).
      apply bool_decide_ext. rewrite Exists_cons. simpl.
      split; [tauto|]. intros [[_ ?]|?]; [congruence|done].
Qed.

(** Over the entries of the map itself, each visited once, the loop keeps
    exactly the entries that are not stale. *)
Lemma sweep_fold_range (P : Client → bool) order cs ip :
  range_of cs order →
  foldl (λ acc kv, if P kv.2 then delete kv.1 acc else acc) cs order !! ip =
  match cs !! ip with
  | Some c => if P c then None else Some c
  | None => None
  end.
Proof.
  unfold range_of. intros Hperm. rewrite sweep_fold_lookup.
  destruct (cs !! ip) as [c|] eqn:Hc.
  - destruct (P c) eqn:HP.
    + rewrite bool_decide_eq_true_2; [done|].
      apply Exists_exists. exists (ip, c). split; [|done].
      rewrite Hperm. by apply elem_of_map_to_list.
    + rewrite bool_decide_eq_false_2; [done|].
      intros ([k c'] & Hin & Hk & HP')%Exists_exists. simpl in *. subst k.
      rewrite Hperm in Hin. apply elem_of_map_to_list in Hin. congruence.
  - by case_bool_decide.
Qed.

Lemma CleanupStaleClients_at_rest order t hp cs r b :
  CleanupStaleClients order (mkWorld t hp (registry_at_rest r b cs)) =
  Done tt
    (mkWorld t hp
       (registry_at_rest r b
          (foldl (λ acc kv, if 1 * time.Hour <? time.Sub t (lastSeen kv.2)
                            then delete kv.1 acc else acc)
             cs order))).
Proof.
  unfold CleanupStaleClients, registry_at_rest.
  erewrite bind_Done; [|reflexivity]. cbn [set_mu get_mu rl mu clock heap clients
    rate burst expiration].
  erewrite bind_Done; [|apply sweep_loop]. reflexivity.
Qed.

(** C5.  With the expiration of one hour set by [NewIPRateLimiter], a sweep
    at instant [now], ranging over the entries in whatever order, returns and
    removes exactly the entries last seen before [now] minus one hour; every
    other entry keeps its bucket address and timestamp, and nothing else (the
    buckets, the clock) changes.  An entry last seen 59 minutes before the
    sweep survives it, one last seen 61 minutes before is removed. *)
Theorem sweep_removes_exactly_stale r b cs now hp order :
  range_of cs order →
  ∃ cs',
    CleanupStaleClients order (mkWorld now hp (registry_at_rest r b cs))
    = Done tt (mkWorld now hp (registry_at_rest r b cs'))
    ∧ (∀ ip, cs' !! ip = match cs !! ip with
                         | Some c => if stale now time.Hour c then None else Some c
                         | None => None
                         end)
    ∧ (∀ ip c, cs !! ip = Some c → now = lastSeen c + 59 * time.Minute →
               cs' !! ip = Some c)
    ∧ (∀ ip c, cs !! ip = Some c → now = lastSeen c + 61 * time.Minute →
               cs' !! ip = None).
Proof.
  intros Hrange. eexists. split; [apply CleanupStaleClients_at_rest|].
  assert (Hlookup : ∀ ip,
    foldl (λ acc kv, if 1 * time.Hour <? time.Sub now (lastSeen kv.2)
                     then delete kv.1 acc else acc)
      cs order !! ip =
    match cs !! ip with
    | Some c => if stale now time.Hour c then None else Some c
    | None => None
    end).
  { intros ip.
    rewrite (sweep_fold_range (λ c, 1 * time.Hour <? time.Sub now (lastSeen c))) by done.
    destruct (cs !! ip) as [c|]; [|done]. by rewrite since_exceeds_hour. }
  split_and!; [exact Hlookup|..].
  - intros ip c Hc Hnow. rewrite Hlookup, Hc. unfold stale.
    rewrite bool_decide_eq_false_2; [done|].
    unfold time.Hour, time.Minute, time.Second, time.Nanosecond in *. lia.
  - intros ip c Hc Hnow. rewrite Hlookup, Hc. unfold stale.
    rewrite bool_decide_eq_true_2; [done|].
    unfold time.Hour, time.Minute, time.Second, time.Nanosecond in *. lia.
Qed.
(** The scenario of the entry created at [T0 = 0] by [AddClient] and not
    accessed again: it is still there after a sweep 59 minutes later, and
    gone after a second sweep two minutes after the first. *)
Lemma sweep_removes_exactly_stale_witness :
  range_of (<[visitor := first_entry]> ∅) [(visitor, first_entry)]
  ∧ ∃ w,
      (AddClient visitor ;;;
       time_Sleep (59 * time.Minute) ;;;
       CleanupStaleClients [(visitor, first_entry)] ;;;
       at59 <- gets (λ w, clients (rl w) !! visitor) ;;
       time_Sleep (2 * time.Minute) ;;;
       CleanupStaleClients [(visitor, first_entry)] ;;;
       at61 <- gets (λ w, clients (rl w) !! visitor) ;;
       ret (at59, at61))
        (mkWorld 0 ∅ global_limiter)
      = Done (Some first_entry, None) w.
Proof.
  assert (Hrange : range_of (<[visitor := first_entry]> ∅) [(visitor, first_entry)]).
  { unfold range_of. by rewrite insert_empty, map_to_list_singleton. }
  split; [exact Hrange|].
  destruct (sweep_removes_exactly_stale 1 5 _ (59 * time.Minute)
              (<[1%positive := rate.NewLimiter 1 5 0]> ∅) _ Hrange)
    as (cs59 & Hrun59 & Hall59 & Hkeep & _).
  assert (Hcs59 : cs59 = <[visitor := first_entry]> ∅).
  { apply map_eq. intros ip. rewrite Hall59.
    destruct (decide (ip = visitor)) as [->|Hne].
    - by rewrite lookup_insert_eq.
    - by rewrite lookup_insert_ne, lookup_empty. }
  subst cs59.
  destruct (sweep_removes_exactly_stale 1 5 _ (61 * time.Minute)
              (<[1%positive := rate.NewLimiter 1 5 0]> ∅) _ Hrange)
    as (cs61 & Hrun61 & _ & _ & Hdrop).
  exists (mkWorld (61 * time.Minute) (<[1%positive := rate.NewLimiter 1 5 0]> ∅)
            (registry_at_rest 1 5 cs61)).
  erewrite bind_Done; [|reflexivity].
  erewrite bind_Done; [|reflexivity].
  erewrite bind_Done; [|exact Hrun59].
  erewrite bind_Done; [|reflexivity].
  erewrite bind_Done; [|reflexivity].
  erewrite bind_Done; [|exact Hrun61].
  unfold bind, gets, ret. cbn [rl clients registry_at_rest].
  rewrite lookup_insert_eq.
  by rewrite (Hdrop visitor first_entry (lookup_insert_eq _ _ _) eq_refl).
Defined.
End sweep.

(** * The token bucket *)

Section bucket.
Import rate.
Local Open Scope Q_scope.
Implicit Types (lim : Limiter) (now : Z).

Lemma seconds_between_nonneg from to : (from <= to)%Z → 0 <= seconds_between from to.
Proof. unfold seconds_between, Qle. simpl. lia. Qed.

Lemma seconds_between_lt_1 from to :
  (to - from < time.Second)%Z → seconds_between from to < 1.
Proof.
  unfold seconds_between, Qlt, time.Second, time.Nanosecond. simpl. lia.
Qed.

Lemma seconds_between_ge_1 from to :
  (time.Second <= to - from)%Z → 1 <= seconds_between from to.
Proof.
  unfold seconds_between, Qle, time.Second, time.Nanosecond. simpl. lia.
Qed.

Lemma seconds_between_add a b c :
  seconds_between a b + seconds_between b c == seconds_between a c.
Proof. unfold seconds_between, Qeq, Qplus. simpl. lia. Qed.

Lemma advance_le_burst now lim : advance now lim <= inject_Z (burst lim).
Proof. apply Q.le_min_l. Qed.

Lemma advance_nonneg now lim :
  0 <= limit lim → in_range lim → (last lim <= now)%Z → 0 <= advance now lim.
Proof.
  intros Hr [Hlo Hhi] Hnow. unfold advance, uncapped. apply Q.min_glb; [lra|].
  pose proof (seconds_between_nonneg _ _ Hnow) as Hs.
  pose proof (Qmult_le_0_compat _ _ Hr Hs). lra.
Qed.

(** One call keeps the count within the bucket and the configuration as it
    was, and stamps the bucket with the instant of the call. *)
Lemma Allow_in_range now lim :
  0 <= limit lim → in_range lim → (last lim <= now)%Z →
  in_range (Allow now lim).2
  ∧ limit (Allow now lim).2 = limit lim
  ∧ burst (Allow now lim).2 = burst lim
  ∧ last (Allow now lim).2 = now.
Proof.
  intros Hr Hin Hnow.
  pose proof (advance_le_burst now lim) as Hhi.
  pose proof (advance_nonneg now lim Hr Hin Hnow) as Hlo.
  unfold Allow, in_range. cbn [refilled tokens limit burst last].
  destruct (Qle_bool 1 (advance now lim)) eqn:Hle; cbn [snd tokens limit burst last].
  - apply Qle_bool_iff in Hle. split_and!; [lra|lra|done..].
  - split_and!; done.
Qed.

Lemma run_in_range times lim :
  0 <= limit lim → in_range lim → monotone_from (last lim) times →
  Forall (λ res, in_range res.2 ∧ burst res.2 = burst lim) (run times lim).
Proof.
  revert lim. induction times as [|now times IH]; intros lim Hr Hin Hmono.
  - constructor.
  - destruct Hmono as [Hnow Hmono]. cbn [run]. cbv zeta.
    destruct (Allow_in_range now lim Hr Hin Hnow) as (Hin' & Hlimit & Hburst & Hlast).
    constructor; [done|].
    rewrite <- Hburst. apply IH.
    + by rewrite Hlimit.
    + done.
    + by rewrite Hlast.
Qed.

(** C7.  A bucket created with rate [r] and burst [b] starts with a token
    count in [[0, b]], and after every call of any sequence of [Allow] calls
    made at successive clock readings the count is again in [[0, b]]: never
    above the burst, never negative. *)
Theorem token_count_within_burst (r : Q) (b : Z) (t0 : Z) (times : list Z) :
  0 <= r → (0 <= b)%Z → monotone_from t0 times →
  in_range (NewLimiter r b t0)
  ∧ Forall (λ res, 0 <= tokens res.2 ∧ tokens res.2 <= inject_Z b)
      (run times (NewLimiter r b t0)).
Proof.
  intros Hr Hb Hmono.
  assert (Hin : in_range (NewLimiter r b t0)).
  { unfold in_range, NewLimiter. cbn [tokens burst].
    split; [|lra]. change 0 with (inject_Z 0). by rewrite <- Zle_Qle. }
  split; [done|].
  eapply Forall_impl; [by apply run_in_range|].
  intros res [[Hlo Hhi] Hburst]. cbn [burst NewLimiter] in Hburst.
  rewrite Hburst in Hhi. done.
Qed.

(** Four calls on the bucket of the global registry: two at once, one a
    second later, one after a further second and a half. *)
Lemma token_count_within_burst_witness :
  0 <= 1 ∧ (0 <= 5)%Z ∧ monotone_from 0 [0; 0; 1000000000; 2500000000]%Z
  ∧ Forall (λ res, 0 <= tokens res.2 ∧ tokens res.2 <= inject_Z 5)
      (run [0; 0; 1000000000; 2500000000]%Z (NewLimiter 1 5 0)).
Proof.
  assert (H1 : 0 <= 1) by (unfold Qle; simpl; lia).
  assert (H2 : (0 <= 5)%Z) by lia.
  assert (H3 : monotone_from 0 [0; 0; 1000000000; 2500000000]%Z) by (simpl; lia).
  split_and!; [exact H1|exact H2|exact H3|].
  exact (proj2 (token_count_within_burst 1 5 0 _ H1 H2 H3)).
Defined.
End bucket.

Section bucket_scenario.
Import rate.
Local Open Scope Q_scope.
Implicit Types (lim : Limiter) (now : Z).

(** A call finding at least one token admits and takes it. *)
Lemma Allow_admits now lim x :
  uncapped now lim == x → 1 <= x → x <= inject_Z (burst lim) →
  ∃ v, Allow now lim = (true, mkLimiter (limit lim) (burst lim) v now) ∧ v == x - 1.
Proof.
  intros Hx H1 Hcap. exists (advance now lim - 1).
  assert (Ha : advance now lim == x).
  { unfold advance.
    destruct (Q.min_spec (inject_Z (burst lim)) (uncapped now lim)) as [[? ->]|[? ->]]; lra. }
  split; [|lra].
  unfold Allow. cbn [refilled tokens limit burst last].
  destruct (Qle_bool 1 (advance now lim)) eqn:Hle; [done|].
  assert (Hle' : Qle_bool 1 (advance now lim) = true) by (apply Qle_bool_iff; lra).
  congruence.
Qed.

(** A call finding the bucket overflowing caps it at the burst first. *)
Lemma Allow_admits_full now lim :
  inject_Z (burst lim) <= uncapped now lim → 1 <= inject_Z (burst lim) →
  ∃ v, Allow now lim = (true, mkLimiter (limit lim) (burst lim) v now)
       ∧ v == inject_Z (burst lim) - 1.
Proof.
  intros Hfull H1. exists (advance now lim - 1).
  assert (Ha : advance now lim == inject_Z (burst lim)).
  { unfold advance.
    destruct (Q.min_spec (inject_Z (burst lim)) (uncapped now lim)) as [[? ->]|[? ->]]; lra. }
  split; [|lra].
  unfold Allow. cbn [refilled tokens limit burst last].
  destruct (Qle_bool 1 (advance now lim)) eqn:Hle; [done|].
  assert (Hle' : Qle_bool 1 (advance now lim) = true) by (apply Qle_bool_iff; lra).
  congruence.
Qed.

(** A call finding less than one token rejects and keeps the refill. *)
Lemma Allow_rejects now lim x :
  uncapped now lim == x → x < 1 → x <= inject_Z (burst lim) →
  ∃ v, Allow now lim = (false, mkLimiter (limit lim) (burst lim) v now) ∧ v == x.
Proof.
  intros Hx H1 Hcap. exists (advance now lim).
  assert (Ha : advance now lim == x).
  { unfold advance.
    destruct (Q.min_spec (inject_Z (burst lim)) (uncapped now lim)) as [[? ->]|[? ->]]; lra. }
  split; [|done].
  unfold Allow. cbn [refilled tokens limit burst last].
  destruct (Qle_bool 1 (advance now lim)) eqn:Hle; [|done].
  apply Qle_bool_iff in Hle. lra.
Qed.

Local Ltac bucket_arith :=
  unfold uncapped in *; cbn [tokens limit burst last] in *;
  change (inject_Z 5) with 5 in *; lra.

(** C4.  The bucket of the global registry (one token per second, burst of
    five), created full at [t0]: six [Allow] calls made back to back, the
    last less than a second after the first, give five [true] and then one
    [false]; the next call, a second or more after the rejected one, gives
    [true]. *)
Theorem burst_of_five_then_reject (t0 t1 t2 t3 t4 t5 t6 t7 : Z) :
  (t0 <= t1 <= t2)%Z → (t2 <= t3 <= t4)%Z → (t4 <= t5 <= t6)%Z →
  (t6 - t1 < time.Second)%Z →
  (t6 + time.Second <= t7)%Z →
  (run [t1; t2; t3; t4; t5; t6; t7]
     (NewLimiter (middleware.rate middleware.global_limiter)
        (middleware.burst middleware.global_limiter) t0)).*1
  = [true; true; true; true; true; false; true].
Proof.
  intros [H01 H12] [H23 H34] [H45 H56] Hquick Hwait.
  cbn [middleware.rate middleware.burst middleware.global_limiter
       middleware.NewIPRateLimiter NewLimiter].
  pose proof (seconds_between_nonneg t0 t1 H01) as S01.
  pose proof (seconds_between_nonneg t1 t2 H12) as S12.
  pose proof (seconds_between_nonneg t2 t3 H23) as S23.
  pose proof (seconds_between_nonneg t3 t4 H34) as S34.
  pose proof (seconds_between_nonneg t4 t5 H45) as S45.
  pose proof (seconds_between_nonneg t5 t6 H56) as S56.
  pose proof (seconds_between_add t1 t2 t3) as A3.
  pose proof (seconds_between_add t1 t3 t4) as A4.
  pose proof (seconds_between_add t1 t4 t5) as A5.
  pose proof (seconds_between_add t1 t5 t6) as A6.
  pose proof (seconds_between_add t1 t6 t7) as A7.
  assert (Q6 : seconds_between t1 t6 < 1) by (apply seconds_between_lt_1; lia).
  assert (W7 : 1 <= seconds_between t6 t7) by (apply seconds_between_ge_1; lia).
  assert (N6 : 0 <= seconds_between t1 t6)
    by (apply seconds_between_nonneg; lia).
  unfold NewLimiter. change (inject_Z 5) with 5.
  (* first call: the bucket is full *)
  cbn [run]. cbv zeta.
  destruct (Allow_admits_full t1 (mkLimiter 1 5 5 t0)) as (v1 & -> & Hv1);
    [bucket_arith..|].
  cbn [snd limit burst tokens last] in *. change (inject_Z 5) with 5 in Hv1.
  (* second to fifth call: a token is left *)
  destruct (Allow_admits t2 (mkLimiter 1 5 v1 t1) (4 + seconds_between t1 t2))
    as (v2 & -> & Hv2); [bucket_arith..|].
  cbn [snd limit burst tokens last] in *.
  destruct (Allow_admits t3 (mkLimiter 1 5 v2 t2) (3 + seconds_between t1 t3))
    as (v3 & -> & Hv3); [bucket_arith..|].
  cbn [snd limit burst tokens last] in *.
  destruct (Allow_admits t4 (mkLimiter 1 5 v3 t3) (2 + seconds_between t1 t4))
    as (v4 & -> & Hv4); [bucket_arith..|].
  cbn [snd limit burst tokens last] in *.
  destruct (Allow_admits t5 (mkLimiter 1 5 v4 t4) (1 + seconds_between t1 t5))
    as (v5 & -> & Hv5); [bucket_arith..|].
  cbn [snd limit burst tokens last] in *.
  (* sixth call: less than a token has dripped in *)
  destruct (Allow_rejects t6 (mkLimiter 1 5 v5 t5) (seconds_between t1 t6))
    as (v6 & -> & Hv6); [bucket_arith..|].
  cbn [snd limit burst tokens last] in *.
  (* seventh call, a second later *)
  destruct (Q.min_spec 5 (uncapped t7 (mkLimiter 1 5 v6 t6))) as [[Hlt _]|[Hle _]].
  - destruct (Allow_admits_full t7 (mkLimiter 1 5 v6 t6)) as (v7 & -> & _);
      [bucket_arith..|].
    reflexivity.
  - destruct (Allow_admits t7 (mkLimiter 1 5 v6 t6) (seconds_between t1 t7))
      as (v7 & -> & _); [bucket_arith..|].
    reflexivity.
Qed.
(** Six calls at the very instant the bucket is created, the seventh one
    second later. *)
Lemma burst_of_five_then_reject_witness :
  ((0 <= 0 <= 0)%Z ∧ (0 - 0 < time.Second)%Z ∧ (0 + time.Second <= 1000000000)%Z)
  ∧ (run [0; 0; 0; 0; 0; 0; 1000000000]%Z
       (NewLimiter (middleware.rate middleware.global_limiter)
          (middleware.burst middleware.global_limiter) 0)).*1
    = [true; true; true; true; true; false; true].
Proof.
  assert (H0 : (0 <= 0 <= 0)%Z) by lia.
  assert (Hquick : (0 - 0 < time.Second)%Z) by (vm_compute; reflexivity).
  assert (Hwait : (0 + time.Second <= 1000000000)%Z) by (vm_compute; discriminate).
  split; [by split_and!|].
  exact (burst_of_five_then_reject 0 0 0 0 0 0 0 1000000000 H0 H0 H0 Hquick Hwait).
Defined.
End bucket_scenario.

(** * The admission gate *)

Section gate.
Import middleware.
Context {D : Type}.
Implicit Types (next : @Handler D) (req : Request) (w : ResponseWriter).
Implicit Types (s : World * D) (l : ptr).

Lemma Allow_rejected now lim :
  (rate.Allow now lim).1 = false → (rate.Allow now lim).2 = rate.refilled now lim.
Proof. unfold rate.Allow. by destruct (Qle_bool _ _). Qed.

(** [GetLimiter] returns only on an identity that has an entry, and then only
    stamps that entry. *)
Lemma GetLimiter_returns ip (w0 w1 : World) l :
  GetLimiter ip w0 = Done l w1 →
  ∃ c, clients (rl w0) !! ip = Some c
       ∧ l = limiter c
       ∧ mu (rl w0) = unlocked
       ∧ w1 = set_clients (insert ip {| limiter := limiter c; lastSeen := clock w0 |}) w0.
Proof.
  destruct w0 as [t hp [cs [wr n p] rt b e]]. intros Hrun.
  destruct wr; [discriminate|]. destruct p; [discriminate|].
  destruct n as [|n]; [|discriminate].
  destruct (cs !! ip) as [c|] eqn:Hc.
  - rewrite (GetLimiter_present _ _ _ _ _ _ _ _ Hc) in Hrun.
    injection Hrun as <- <-. by exists c.
  - by rewrite (GetLimiter_absent _ _ _ _ _ _ _ Hc) in Hrun.
Qed.

Lemma Limiter_Allow_returns l (w1 w2 : World) (allowed : bool) :
  Limiter_Allow l w1 = Done allowed w2 →
  ∃ lim, heap w1 !! l = Some lim
         ∧ allowed = (rate.Allow (clock w1) lim).1
         ∧ w2 = set_heap (insert l (rate.Allow (clock w1) lim).2) w1.
Proof.
  unfold Limiter_Allow, bind, time_Now, gets, modify, ret.
  destruct (heap w1 !! l) as [lim|]; [|discriminate].
  intros [= <- <-]. by exists lim.
Qed.

Lemma lift_Done {A} (m : M World A) s (a : A) s' :
  lift (D:=D) m s = Done a s' → m s.1 = Done a s'.1 ∧ s'.2 = s.2.
Proof. unfold lift. destruct (m s.1); intros [= <- <-] || discriminate. done. Qed.

(** C8 (amended).  When [Allow] returns false for a request, the handler
    answers 429 with the rate-limit message and returns without calling the
    wrapped handler, whatever that handler is.  Compared with the state
    before the request, the rest of the server (the store) is unchanged, and
    so is the clock; of the registry only the entry of this identity has
    changed, and of that entry only the last-seen stamp, which [GetLimiter]
    set to the time of the request before [Allow] was called; of the buckets
    only this identity's has changed, to its refilled state. *)
Theorem rejected_request_only_stamps_and_refills next req w s0 s1 s2 l :
  lift (GetLimiter (clientIP req)) s0 = Done l s1 →
  lift (Limiter_Allow l) s1 = Done false s2 →
  RateLimitMiddleware next req w s0
  = Done (http_Error w "Rate limit exceeded" StatusTooManyRequests) s2
  ∧ (∀ next', RateLimitMiddleware next' req w s0 = RateLimitMiddleware next req w s0)
  ∧ s2.2 = s0.2
  ∧ rl s2.1 = rl s1.1
  ∧ clock s2.1 = clock s0.1
  ∧ ∃ c lim,
      clients (rl s0.1) !! clientIP req = Some c
      ∧ heap s0.1 !! limiter c = Some lim
      ∧ clients (rl s2.1)
        = <[clientIP req := {| limiter := limiter c; lastSeen := clock s0.1 |}]>
            (clients (rl s0.1))
      ∧ heap s2.1 = <[limiter c := rate.refilled (clock s0.1) lim]> (heap s0.1)
      ∧ s2.1
        = set_heap (insert (limiter c) (rate.refilled (clock s0.1) lim))
            (set_clients
               (insert (clientIP req) {| limiter := limiter c; lastSeen := clock s0.1 |})
               s0.1)
      ∧ (∀ ip, ip ≠ clientIP req → clients (rl s2.1) !! ip = clients (rl s0.1) !! ip)
      ∧ (∀ l', l' ≠ limiter c → heap s2.1 !! l' = heap s0.1 !! l')
      ∧ mu (rl s2.1) = mu (rl s0.1)
      ∧ rate (rl s2.1) = rate (rl s0.1)
      ∧ burst (rl s2.1) = burst (rl s0.1)
      ∧ expiration (rl s2.1) = expiration (rl s0.1).
Proof.
  intros Hget Hallow.
  assert (Hrun : ∀ next', RateLimitMiddleware next' req w s0
            = Done (http_Error w "Rate limit exceeded" StatusTooManyRequests) s2).
  { intros next'. unfold RateLimitMiddleware.
    erewrite bind_Done; [|reflexivity].
    erewrite bind_Done; [|exact Hget].
    erewrite bind_Done; [|exact Hallow]. reflexivity. }
  apply lift_Done in Hget as [Hget Hd1], Hallow as [Hallow Hd2].
  apply GetLimiter_returns in Hget as (c & Hc & -> & Hmu & Hw1).
  apply Limiter_Allow_returns in Hallow as (lim & Hlim & Hfalse & Hw2).
  symmetry in Hfalse. apply Allow_rejected in Hfalse.
  rewrite Hfalse in Hw2. rewrite Hw1 in Hlim, Hw2.
  cbn [set_clients set_heap heap clock rl clients] in *.
  split_and!.
  - apply Hrun.
  - intros next'. by rewrite !Hrun.
  - congruence.
  - by rewrite Hw2, Hw1.
  - by rewrite Hw2.
  - exists c, lim. rewrite Hw2.
    cbn [set_clients set_heap heap clock rl clients mu rate burst expiration].
    split_and!; try done.
    + intros ip Hip. by rewrite lookup_insert_ne.
    + intros l' Hl'. by rewrite lookup_insert_ne.
Qed.
(** C9 (defect in the code, the one of C1).  The identity a request is
    rate-limited on is the value of its [X-Forwarded-For] header when that is
    not empty, and its [RemoteAddr] otherwise; the string is not inspected.
    But the admission path does fail: the first request to the server's
    registry, whatever its identity, an empty or a malformed one included,
    parks in [GetLimiter] and is never answered, neither rejected nor handed
    to the wrapped handler, and it leaves the registry locked, so that every
    later request parks as well.  The same holds on any registry at rest
    without an entry for the request's identity, and the parked request
    files none.  Only a request whose identity already had an entry would be
    answered. *)
Theorem identity_found_but_request_parks :
  (∀ req,
     clientIP req
     = (if decide (Header_Get (Header req) "X-Forwarded-For" = EmptyString)
        then RemoteAddr req else Header_Get (Header req) "X-Forwarded-For"))
  ∧ clientIP scenarios.request_without_identity = EmptyString
  ∧ clientIP scenarios.request_with_malformed_identity = "not an address, ;;"%string
  ∧ (∀ next req w t (d : D),
       RateLimitMiddleware next req w (mkWorld t ∅ global_limiter, d)
       = Blocked (mkWorld t {[1%positive := rate.NewLimiter 1 5 t]}
                    (mkIPRateLimiter ∅ write_locked 1 5 (1 * time.Hour)), d)
       ∧ ∀ next' req' w',
           RateLimitMiddleware next' req' w'
             (mkWorld t {[1%positive := rate.NewLimiter 1 5 t]}
                (mkIPRateLimiter ∅ write_locked 1 5 (1 * time.Hour)), d)
           = Blocked (mkWorld t {[1%positive := rate.NewLimiter 1 5 t]}
                        (mkIPRateLimiter ∅ write_locked 1 5 (1 * time.Hour)), d))
  ∧ (∀ next req w t hp cs r b e (d : D),
       RateLimitMiddleware next req w
         (mkWorld t hp (mkIPRateLimiter (delete (clientIP req) cs) unlocked r b e), d)
       = Blocked (mkWorld t (<[fresh (dom hp) := rate.NewLimiter r b t]> hp)
                    (mkIPRateLimiter (delete (clientIP req) cs) write_locked r b e), d))
  ∧ (∀ next req w t hp cs r b e c lim (d : D),
       RateLimitMiddleware next req w
         (mkWorld t (<[limiter c := lim]> hp)
            (mkIPRateLimiter (<[clientIP req := c]> cs) unlocked r b e), d)
       = (if (rate.Allow t lim).1 then next req w
          else ret (http_Error w "Rate limit exceeded" StatusTooManyRequests))
           (mkWorld t (<[limiter c := (rate.Allow t lim).2]> (<[limiter c := lim]> hp))
              (mkIPRateLimiter
                 (<[clientIP req := {| limiter := limiter c; lastSeen := t |}]>
                    (<[clientIP req := c]> cs))
                 unlocked r b e), d)).
Proof.
  split_and!.
  - intros req. unfold clientIP. cbv zeta. case_bool_decide; case_decide; done.
  - reflexivity.
  - reflexivity.
  - intros next req w t d. split.
    + unfold RateLimitMiddleware.
      erewrite bind_Done; [|reflexivity].
      erewrite bind_Blocked; [reflexivity|].
      unfold lift; cbn [fst snd]. unfold global_limiter, NewIPRateLimiter.
      rewrite GetLimiter_absent by done. reflexivity.
    + intros next' req' w'. unfold RateLimitMiddleware.
      erewrite bind_Done; [|reflexivity].
      erewrite bind_Blocked; [reflexivity|].
      unfold lift; cbn [fst snd]. by rewrite GetLimiter_locked.
  - intros next req w t hp cs r b e d. unfold RateLimitMiddleware.
    erewrite bind_Done; [|reflexivity].
    erewrite bind_Blocked; [reflexivity|].
    unfold lift; cbn [fst snd].
    by rewrite GetLimiter_absent by apply lookup_delete_eq.
  - intros next req w t hp cs r b e c lim d. unfold RateLimitMiddleware.
    erewrite bind_Done; [|reflexivity].
    erewrite bind_Done;
      [|unfold lift; cbn [fst snd];
        by rewrite (GetLimiter_present _ _ _ _ _ _ _ c) by apply lookup_insert_eq].
    erewrite bind_Done;
      [|unfold lift, Limiter_Allow, bind, time_Now, gets, modify, ret;
        cbn [fst snd heap clock]; rewrite lookup_insert_eq; reflexivity].
    by destruct (rate.Allow t lim).1.
Qed.
End gate.

Section gate_scenarios.
Import middleware scenarios.

(** The visitor comes back a tenth of a second after its bucket ran empty:
    the request is rejected, the store is not written, and the entry's stamp
    moves from 4.9 s to 5 s. *)
Lemma rejected_request_only_stamps_and_refills_witness :
  ∃ s1 s2,
    lift (GetLimiter (clientIP request_from_address)) returning_server = Done 1%positive s1
    ∧ lift (Limiter_Allow 1%positive) s1 = Done false s2
    ∧ RateLimitMiddleware (store_set "k" "v") request_from_address fresh_response
        returning_server
      = Done (mkResponseWriter (Some 429) ("Rate limit exceeded" ++ newline)) s2
    ∧ s2.2 = main.NewLunarDB
    ∧ clients (rl s2.1) !! visitor
      = Some {| limiter := 1%positive; lastSeen := 5000000000 |}.
Proof.
  exists (final (lift (GetLimiter (clientIP request_from_address)) returning_server)).
  exists (final (lift (Limiter_Allow 1%positive)
            (final (lift (GetLimiter (clientIP request_from_address)) returning_server)))).
  assert (Hget :
    lift (GetLimiter (clientIP request_from_address)) returning_server
    = Done 1%positive
        (final (lift (GetLimiter (clientIP request_from_address)) returning_server)))
    by (vm_compute; reflexivity).
  assert (Hallow :
    lift (Limiter_Allow 1%positive)
      (final (lift (GetLimiter (clientIP request_from_address)) returning_server))
    = Done false
        (final (lift (Limiter_Allow 1%positive)
           (final (lift (GetLimiter (clientIP request_from_address)) returning_server)))))
    by (vm_compute; reflexivity).
  pose proof (rejected_request_only_stamps_and_refills (store_set "k" "v")
                request_from_address fresh_response _ _ _ _ Hget Hallow)
    as (Hrun & _ & Hstore & _ & _ & c & lim & Hc & _ & Hclients & _).
  split_and!; [exact Hget|exact Hallow|exact Hrun|exact Hstore|].
  rewrite Hclients. change (clientIP request_from_address) with visitor in *.
  rewrite lookup_insert_eq.
  assert (c = {| limiter := 1%positive; lastSeen := 4900000000 |}) as ->.
  { revert Hc. unfold returning_server. cbn [fst rl clients registry_at_rest].
    rewrite lookup_insert_eq. by intros [= <-]. }
  reflexivity.
Defined.

(** C8 as first stated does not hold: in the same scenario [Allow] returns
    false and the request is rejected, yet the registry is not as it was
    before the request, the entry's stamp having moved. *)
Lemma rejected_request_restamps_entry :
  ∃ s1 s2,
    lift (GetLimiter (clientIP request_from_address)) returning_server = Done 1%positive s1
    ∧ lift (Limiter_Allow 1%positive) s1 = Done false s2
    ∧ RateLimitMiddleware (store_set "k" "v") request_from_address fresh_response
        returning_server
      = Done (mkResponseWriter (Some 429) ("Rate limit exceeded" ++ newline)) s2
    ∧ clients (rl returning_server.1) !! visitor
      = Some {| limiter := 1%positive; lastSeen := 4900000000 |}
    ∧ clients (rl s2.1) !! visitor
      = Some {| limiter := 1%positive; lastSeen := 5000000000 |}
    ∧ rl s2.1 ≠ rl returning_server.1.
Proof.
  exists (final (lift (GetLimiter (clientIP request_from_address)) returning_server)).
  exists (final (lift (Limiter_Allow 1%positive)
            (final (lift (GetLimiter (clientIP request_from_address)) returning_server)))).
  assert (Hbefore : clients (rl returning_server.1) !! visitor
                    = Some {| limiter := 1%positive; lastSeen := 4900000000 |})
    by (vm_compute; reflexivity).
  assert (Hafter :
    clients (rl (final (lift (Limiter_Allow 1%positive)
                   (final (lift (GetLimiter (clientIP request_from_address))
                             returning_server)))).1) !! visitor
    = Some {| limiter := 1%positive; lastSeen := 5000000000 |})
    by (vm_compute; reflexivity).
  split_and!; [vm_compute; reflexivity..|exact Hbefore|exact Hafter|].
  intros Heq. rewrite Heq, Hbefore in Hafter. discriminate.
Qed.

(** The burst seen through the gate: of six requests sent at the same
    instant by a known visitor, five reach the store and the sixth is answered
    429; a request sent a second later reaches the store again. *)
Lemma gate_burst_of_five :
  ∃ s,
    (first6 <- serve (RateLimitMiddleware (store_set "k" "v"))
                 (replicate 6 request_from_address) ;;
     lift (time_Sleep time.Second) ;;;
     later <- serve (RateLimitMiddleware (store_set "k" "v")) [request_from_address] ;;
     ret (first6 ++ later)) visited_server
    = Done [Some 200; Some 200; Some 200; Some 200; Some 200; Some 429; Some 200] s.
Proof. eexists. vm_compute. reflexivity. Qed.
End gate_scenarios.

(** * More on the store *)

Section store_more.
Import main store_calls.
Implicit Types (d : gmap string string) (k v : string).

Lemma call_agrees (c : Call) d :
  match c with CallKeys order => range_of d order | _ => True end →
  ∃ a, call c (at_rest d) = Done a (at_rest (map_after c d))
       ∧ agrees a (map_answer c d).
Proof.
  destruct c as [key value|key|key|order]; cbn [call map_after map_answer]; intros Hrange.
  - eexists. split; [by erewrite bind_Done; [|apply Set_at_rest]|done].
  - eexists. split; [by erewrite bind_Done; [|apply Get_at_rest]|].
    by destruct (d !! key).
  - eexists. split; [by erewrite bind_Done; [|apply Del_at_rest]|].
    cbn [agrees]. apply bool_decide_ext. by rewrite elem_of_dom.
  - eexists. split; [by erewrite bind_Done; [|apply Keys_at_rest]|].
    destruct (range_of_keys d order Hrange) as [Hnodup Hmem].
    split; [done|]. intros k. by rewrite Hmem, elem_of_dom.
Qed.

(** X1.  Any sequence of [Set], [Get], [Del] and [Keys] calls on a store at
    rest, each [Keys] ranging over the store as it then is, returns; its
    answers agree, call after call, with those of the same operations on a
    plain finite map ([Keys] lists exactly the keys of the map, each once);
    and the store is left at rest holding that map. *)
Theorem calls_follow_map (cs : list Call) d :
  ranged cs d →
  ∃ answers,
    calls cs (at_rest d) = Done answers (at_rest (foldl (λ m c, map_after c m) d cs))
    ∧ Forall2 agrees answers (map_answers cs d).
Proof.
  revert d. induction cs as [|c cs IH]; intros d Hranged.
  - exists []. split; [done|constructor].
  - destruct Hranged as [Hc Hrest].
    destruct (call_agrees c d Hc) as (a & Hrun & Ha).
    destruct (IH (map_after c d) Hrest) as (answers & Hruns & Has).
    exists (a :: answers). split; [|by constructor].
    cbn [calls foldl]. erewrite bind_Done; [|exact Hrun].
    erewrite bind_Done; [|exact Hruns]. done.
Qed.

(** Two keys set, one deleted, the keys listed, the deleted key looked up. *)
Lemma calls_follow_map_witness :
  ranged [CallSet "a" "1"; CallSet "b" "2"; CallDel "a"; CallKeys [("b"%string, "2"%string)];
          CallGet "a"] ∅
  ∧ ∃ answers db,
      calls [CallSet "a" "1"; CallSet "b" "2"; CallDel "a";
             CallKeys [("b"%string, "2"%string)]; CallGet "a"] (at_rest ∅)
      = Done answers db
      ∧ Forall2 agrees answers
          [MapStored; MapStored; MapDeleted true; MapKeys {["b"%string]}; MapGot None].
Proof.
  assert (Hmap : delete "a"%string (<["b"%string := "2"%string]> (<["a"%string := "1"%string]> ∅))
                 = ({["b"%string := "2"%string]} : gmap string string))
    by (vm_compute; reflexivity).
  assert (Hranged :
    ranged [CallSet "a" "1"; CallSet "b" "2"; CallDel "a";
            CallKeys [("b"%string, "2"%string)]; CallGet "a"] ∅).
  { cbn [ranged map_after]. split_and!; try done.
    unfold range_of. by rewrite Hmap, map_to_list_singleton. }
  split; [exact Hranged|].
  destruct (calls_follow_map _ ∅ Hranged) as (answers & Hrun & Hagree).
  exists answers. eexists. split; [exact Hrun|].
  assert (Hanswers :
    map_answers [CallSet "a" "1"; CallSet "b" "2"; CallDel "a";
                 CallKeys [("b"%string, "2"%string)]; CallGet "a"] ∅
    = [MapStored; MapStored; MapDeleted true; MapKeys {["b"%string]}; MapGot None])
    by (vm_compute; reflexivity).
  by rewrite <- Hanswers.
Defined.

(** X2.  A write touches its own key only: after [Set k v] or [Del k], [Get] on
    another key answers as before; and of two [Set] on one key the second
    wins. *)
Theorem writes_are_local d k k' v v' :
  k ≠ k' →
  (Set_ k v ;;; Get k') (at_rest d)
  = Done (default EmptyString (d !! k'), bool_decide (is_Some (d !! k')))
      (at_rest (<[k := v]> d))
  ∧ (Del k ;;; Get k') (at_rest d)
    = Done (default EmptyString (d !! k'), bool_decide (is_Some (d !! k')))
        (at_rest (delete k d))
  ∧ (Set_ k v ;;; Set_ k v' ;;; Get k) (at_rest d) = Done (v', true) (at_rest (<[k := v']> d)).
Proof.
  intros Hne. split_and!.
  - erewrite bind_Done; [|apply Set_at_rest]. rewrite Get_at_rest.
    rewrite lookup_insert_ne by done. by destruct (d !! k').
  - erewrite bind_Done; [|apply Del_at_rest]. rewrite Get_at_rest.
    rewrite lookup_delete_ne by done. by destruct (d !! k').
  - erewrite bind_Done; [|apply Set_at_rest].
    erewrite bind_Done; [|apply Set_at_rest]. rewrite Get_at_rest.
    by rewrite insert_insert_eq, lookup_insert_eq.
Qed.

(** Two neighbouring keys, one of them stored. *)
Lemma writes_are_local_witness :
  "a"%string ≠ "b"%string
  ∧ (Set_ "a" "1" ;;; Get "b") (at_rest {["b"%string := "2"%string]})
    = Done ("2"%string, true) (at_rest (<["a"%string := "1"%string]> {["b"%string := "2"%string]})).
Proof.
  assert (Hne : "a"%string ≠ "b"%string) by discriminate.
  split; [exact Hne|].
  destruct (writes_are_local {["b"%string := "2"%string]} "a" "b" "1" "1" Hne) as [Hset _].
  rewrite Hset. by rewrite lookup_singleton_eq.
Defined.

(** X3.  Readers share the store and writers wait.  While [n] other readers
    hold the read lock and no writer holds it or waits for it, [Get] and
    [Keys] return and leave the lock with those [n] readers.  A [Set] or
    [Del] that arrives while a reader holds the lock parks, with the map
    untouched and the writer now announced; behind that waiting writer [Get]
    and [Keys] park too, and so do further [Set] and [Del].  While a writer
    holds the lock all four park and nothing changes. *)
Theorem readers_share_writers_wait d (n : nat) (p : bool) k v order :
  (Get k (mkLunarDB d (mkRWMutex false n false))
   = Done (default EmptyString (d !! k), bool_decide (is_Some (d !! k)))
       (mkLunarDB d (mkRWMutex false n false))
   ∧ Keys order (mkLunarDB d (mkRWMutex false n false))
     = Done (order.*1) (mkLunarDB d (mkRWMutex false n false)))
  ∧ (Set_ k v (mkLunarDB d (mkRWMutex false (S n) false))
     = Blocked (mkLunarDB d (mkRWMutex false (S n) true))
     ∧ Del k (mkLunarDB d (mkRWMutex false (S n) false))
       = Blocked (mkLunarDB d (mkRWMutex false (S n) true)))
  ∧ (Get k (mkLunarDB d (mkRWMutex false n true))
     = Blocked (mkLunarDB d (mkRWMutex false n true))
     ∧ Keys order (mkLunarDB d (mkRWMutex false n true))
       = Blocked (mkLunarDB d (mkRWMutex false n true))
     ∧ Set_ k v (mkLunarDB d (mkRWMutex false n true))
       = Blocked (mkLunarDB d (mkRWMutex false n true))
     ∧ Del k (mkLunarDB d (mkRWMutex false n true))
       = Blocked (mkLunarDB d (mkRWMutex false n true)))
  ∧ (Get k (mkLunarDB d (mkRWMutex true n p)) = Blocked (mkLunarDB d (mkRWMutex true n p))
     ∧ Keys order (mkLunarDB d (mkRWMutex true n p))
       = Blocked (mkLunarDB d (mkRWMutex true n p))
     ∧ Set_ k v (mkLunarDB d (mkRWMutex true n p))
       = Blocked (mkLunarDB d (mkRWMutex true n p))
     ∧ Del k (mkLunarDB d (mkRWMutex true n p))
       = Blocked (mkLunarDB d (mkRWMutex true n p))).
Proof.
  split_and!; try reflexivity.
  - unfold Get, bind, RLock, RUnlock, gets, ret. cbn. by destruct (d !! k).
  - unfold Keys, bind, RLock, RUnlock, ret. cbn. by rewrite foldl_append_keys.
Qed.
End store_more.

(** * API keys and routes *)

Section api_keys.
Import api.
Implicit Types (ks : gmap string bool) (d : gmap string string).
Implicit Types (req : Request) (c : Context).

Lemma AddKey_at_rest ks key :
  AddKey key {| keys := ks; mu := unlocked |}
  = Done tt {| keys := <[key := true]> ks; mu := unlocked |}.
Proof. reflexivity. Qed.

Lemma ValidateKey_at_rest ks key :
  ValidateKey key {| keys := ks; mu := unlocked |}
  = Done (default false (ks !! key)) {| keys := ks; mu := unlocked |}.
Proof. reflexivity. Qed.

(** X4.  After [AddKey key], [ValidateKey] accepts [key] and answers on every
    other key as before; a key is never withdrawn by adding another, and a
    new manager accepts no key at all. *)
Theorem AddKey_then_ValidateKey ks key key' :
  (AddKey key ;;; ValidateKey key') {| keys := ks; mu := unlocked |}
  = Done (bool_decide (key' = key) || default false (ks !! key'))
      {| keys := <[key := true]> ks; mu := unlocked |}
  ∧ ValidateKey key' NewAPIKeyManager = Done false NewAPIKeyManager.
Proof.
  split; [|reflexivity].
  erewrite bind_Done; [|apply AddKey_at_rest]. rewrite ValidateKey_at_rest.
  case_bool_decide as Hk.
  - subst key'. by rewrite lookup_insert_eq.
  - by rewrite lookup_insert_ne.
Qed.

Lemma APIKeyMiddleware_at_rest c (next : M Server Response) ks d :
  APIKeyMiddleware c next (server_at_rest ks d)
  = if bool_decide (GetHeader c "X-API-Key" ≠ EmptyString)
       && default false (ks !! GetHeader c "X-API-Key")
    then next (server_at_rest ks d)
    else Done unauthorized (server_at_rest ks d).
Proof.
  unfold APIKeyMiddleware. cbv zeta.
  destruct (decide (GetHeader c "X-API-Key" = EmptyString)) as [He|Hne].
  - rewrite bool_decide_eq_false_2 by (by intros ?). reflexivity.
  - rewrite bool_decide_eq_true_2 by done. cbn [andb].
    erewrite bind_Done; [|unfold on_keyManager, server_at_rest; cbn [keyManager db];
                          rewrite ValidateKey_at_rest; reflexivity].
    by destruct (default false (ks !! GetHeader c "X-API-Key")).
Qed.

(** X5.  The key check lets a request through to the rest of the chain exactly
    when the [X-API-Key] header is not empty and is registered as [true];
    otherwise it answers 401 and neither the rest of the chain runs nor
    anything changes.  A request without the header is refused even when the
    empty key is registered. *)
Theorem APIKeyMiddleware_gate c (next : M Server Response) ks d :
  APIKeyMiddleware c next (server_at_rest ks d)
  = (if bool_decide (GetHeader c "X-API-Key" ≠ EmptyString
                     ∧ ks !! GetHeader c "X-API-Key" = Some true)
     then next (server_at_rest ks d)
     else Done unauthorized (server_at_rest ks d))
  ∧ APIKeyMiddleware
      {| Header := delete "X-API-Key"%string (Header c); Params := Params c; Body := Body c |}
      next (server_at_rest (<[EmptyString := true]> ks) d)
    = Done unauthorized (server_at_rest (<[EmptyString := true]> ks) d).
Proof.
  split.
  - rewrite APIKeyMiddleware_at_rest.
    destruct (decide (GetHeader c "X-API-Key" = EmptyString)) as [He|Hne].
    + rewrite bool_decide_eq_false_2 by (by intros ?). cbn [andb].
      by rewrite bool_decide_eq_false_2 by (by intros [? _]).
    + rewrite bool_decide_eq_true_2 by done. cbn [andb].
      destruct (ks !! GetHeader c "X-API-Key") as [[|]|] eqn:Hk; cbn [default].
      * by rewrite bool_decide_eq_true_2.
      * by rewrite bool_decide_eq_false_2 by (by intros [_ ?]).
      * by rewrite bool_decide_eq_false_2 by (by intros [_ ?]).
  - rewrite APIKeyMiddleware_at_rest.
    unfold GetHeader, middleware.Header_Get. cbn [Header].
    rewrite lookup_delete_eq.
    by rewrite bool_decide_eq_false_2 by (by intros ?).
Qed.
End api_keys.

Section api_routes.
Import api.
Implicit Types (ks : gmap string bool) (d : gmap string string).
Implicit Types (req : Request) (c : Context).

Lemma on_db_at_rest {A} (m : M main.LunarDB A) (a : A) ks d d' :
  m (main.at_rest d) = Done a (main.at_rest d') →
  on_db m (server_at_rest ks d) = Done a (server_at_rest ks d').
Proof. unfold on_db, server_at_rest. cbn [db keyManager]. by intros ->. Qed.

Lemma setHandler_at_rest c ks d :
  setHandler c (server_at_rest ks d)
  = match ShouldBindJSON (Body c) with
    | inl err =>
        Done {| code := StatusBadRequest; payload := {["error"%string := JError err]} |}
          (server_at_rest ks d)
    | inr (key, value) =>
        Done {| code := StatusOK; payload := {["result"%string := JString "OK"]} |}
          (server_at_rest ks (<[key := value]> d))
    end.
Proof.
  unfold setHandler. destruct (ShouldBindJSON (Body c)) as [err|[key value]]; [done|].
  by erewrite bind_Done; [|apply on_db_at_rest, Set_at_rest].
Qed.

Lemma getHandler_at_rest c ks d :
  getHandler c (server_at_rest ks d)
  = Done (match d !! Param c "key" with
          | Some value => {| code := StatusOK;
                             payload := {["result"%string := JString value]} |}
          | None => {| code := StatusNotFound;
                       payload := {["error"%string := JString "Key not found"]} |}
          end) (server_at_rest ks d).
Proof.
  unfold getHandler. cbv zeta.
  erewrite bind_Done; [|apply on_db_at_rest, Get_at_rest].
  by destruct (d !! Param c "key").
Qed.

Lemma delHandler_at_rest c ks d :
  delHandler c (server_at_rest ks d)
  = Done (match d !! Param c "key" with
          | Some _ => {| code := StatusOK; payload := {["result"%string := JString "OK"]} |}
          | None => {| code := StatusNotFound;
                       payload := {["error"%string := JString "Key not found"]} |}
          end) (server_at_rest ks (delete (Param c "key") d)).
Proof.
  unfold delHandler. cbv zeta.
  erewrite bind_Done; [|apply on_db_at_rest, Del_at_rest].
  destruct (d !! Param c "key") eqn:Hk.
  - by rewrite bool_decide_eq_true_2.
  - by rewrite bool_decide_eq_false_2 by (by intros [? ?]).
Qed.

Lemma keysHandler_at_rest order c ks d :
  keysHandler order c (server_at_rest ks d)
  = Done {| code := StatusOK; payload := {["keys"%string := JStrings (order.*1)]} |}
      (server_at_rest ks d).
Proof.
  unfold keysHandler. by erewrite bind_Done; [|apply on_db_at_rest, Keys_at_rest].
Qed.

(** One request on a server at rest: the server is at rest again, the keys
    are as before, the store has changed by [store_effect] if the request was
    authorised and not at all otherwise, and the answer is 401 exactly for an
    unauthorised request on a protected route. *)
Lemma serve_at_rest req ks d :
  ∃ resp,
    serve req (server_at_rest ks d)
    = Done resp (server_at_rest ks (if authorised ks req then store_effect req d else d))
    ∧ (code resp = StatusUnauthorized
       ↔ protected (route req) = true ∧ authorised ks req = false).
Proof.
  destruct req as [rt c order]. unfold serve, authorised, presented_key, store_effect.
  cbn [route context range_order].
  destruct rt; cbn [protected].
  1,2: destruct (bool_decide _ && _);
       (eexists; split; [reflexivity|];
        split; [intros Hc; cbv in Hc; discriminate|intros [[=] _]]).
  all: rewrite APIKeyMiddleware_at_rest;
       destruct (bool_decide _ && _);
       [|eexists; split; [reflexivity|done]].
  - rewrite setHandler_at_rest. destruct (ShouldBindJSON (Body c)) as [?|[??]];
      (eexists; split; [reflexivity|];
       split; [intros Hc; cbv in Hc; discriminate|intros [_ [=]]]).
  - rewrite getHandler_at_rest. destruct (d !! Param c "key");
      (eexists; split; [reflexivity|];
       split; [intros Hc; cbv in Hc; discriminate|intros [_ [=]]]).
  - rewrite delHandler_at_rest. destruct (d !! Param c "key");
      (eexists; split; [reflexivity|];
       split; [intros Hc; cbv in Hc; discriminate|intros [_ [=]]]).
  - rewrite keysHandler_at_rest.
    eexists; split; [reflexivity|].
    split; [intros Hc; cbv in Hc; discriminate|intros [_ [=]]].
  - eexists; split; [reflexivity|].
    split; [intros Hc; cbv in Hc; discriminate|intros [_ [=]]].
  - eexists; split; [reflexivity|].
    split; [intros Hc; cbv in Hc; discriminate|intros [_ [=]]].
Qed.
End api_routes.

Section api_sessions.
Import api.
Implicit Types (ks : gmap string bool) (d : gmap string string).
Implicit Types (req : Request) (reqs : list Request).

Lemma serve_all_at_rest reqs ks d :
  ∃ resps,
    serve_all reqs (server_at_rest ks d) = Done resps (server_at_rest ks (store_after ks reqs d))
    ∧ Forall2 (λ req resp, code resp = StatusUnauthorized
                           ↔ protected (route req) = true ∧ authorised ks req = false)
        reqs resps.
Proof.
  revert d. induction reqs as [|req reqs IH]; intros d.
  - exists []. split; [done|constructor].
  - destruct (serve_at_rest req ks d) as (resp & Hrun & Hcode).
    destruct (IH (if authorised ks req then store_effect req d else d)) as (resps & Hall & Hcodes).
    exists (resp :: resps). split; [|by constructor].
    cbn [serve_all]. erewrite bind_Done; [|exact Hrun].
    erewrite bind_Done; [|exact Hall]. done.
Qed.

Lemma ShouldBindJSON_bound body key value :
  ShouldBindJSON body = inr (key, value) →
  body = Object key value ∧ key ≠ EmptyString ∧ value ≠ EmptyString.
Proof.
  destruct body as [err|k v]; [done|]. unfold ShouldBindJSON.
  destruct (decide (k = EmptyString)), (decide (v = EmptyString)); cbn; try done.
  by intros [= <- <-].
Qed.

Lemma store_effect_no_empty_string req d :
  no_empty_string d → no_empty_string (store_effect req d).
Proof.
  intros Hd. unfold store_effect. destruct (route req); try done.
  - destruct (ShouldBindJSON (Body (context req))) as [err|[key value]] eqn:Hb; [done|].
    apply ShouldBindJSON_bound in Hb as (_ & Hk & Hv).
    intros k v [[<- <-]|[_ Hkv]]%lookup_insert_Some; [done|by eapply Hd].
  - intros k v [_ Hkv]%lookup_delete_Some. by eapply Hd.
Qed.

Lemma store_after_no_empty_string ks reqs d :
  no_empty_string d → no_empty_string (store_after ks reqs d).
Proof.
  revert d. induction reqs as [|req reqs IH]; intros d Hd; [done|].
  cbn [store_after foldl]. apply IH.
  destruct (authorised ks req); [by apply store_effect_no_empty_string|done].
Qed.

(** X6.  The key registered at startup is the only one that ever opens the
    protected routes.  Whatever requests follow [main]'s initialisation, all
    of them are answered, none of them changes the registered keys, and a
    request on a protected route is answered 401 exactly when the key it
    presents is not the initial key or is empty. *)
Theorem only_the_initial_key_opens (initialKey : string) reqs :
  ∃ resps d,
    (main_init initialKey ;;; serve_all reqs) fresh_server
    = Done resps (server_at_rest (<[initialKey := true]> ∅) d)
    ∧ Forall2 (λ req resp,
        protected (route req) = true →
        (code resp = StatusUnauthorized
         ↔ ¬ (presented_key req = initialKey ∧ initialKey ≠ EmptyString)))
        reqs resps.
Proof.
  destruct (serve_all_at_rest reqs (<[initialKey := true]> ∅) ∅) as (resps & Hrun & Hcodes).
  exists resps, (store_after (<[initialKey := true]> ∅) reqs ∅). split.
  - erewrite bind_Done; [exact Hrun|reflexivity].
  - eapply Forall2_impl; [exact Hcodes|].
    intros req resp Hcode Hprot. rewrite Hcode. unfold authorised.
    destruct (decide (presented_key req = initialKey)) as [->|Hne].
    + rewrite lookup_insert_eq. cbn [default]. rewrite andb_true_r.
      case_bool_decide as He; cbn [andb]; split.
      * by intros [_ [=]].
      * intros Hno. exfalso. by apply Hno.
      * by intros _ [_ ?].
      * done.
    + rewrite lookup_insert_ne, lookup_empty by done. cbn [default].
      rewrite andb_false_r. split; [intros _ [? _]; done|done].
Qed.

(** X7.  No request can put an empty key or an empty value in the store: starting
    from [main]'s initialisation, after any series of requests the store
    holds no empty key and no empty value, so that a 200 answer to a lookup
    never carries the empty string. *)
Theorem store_never_holds_empty_strings (initialKey : string) reqs :
  ∃ resps d,
    (main_init initialKey ;;; serve_all reqs) fresh_server
    = Done resps (server_at_rest (<[initialKey := true]> ∅) d)
    ∧ no_empty_string d
    ∧ ∀ key, ∃ resp,
        serve (get_request initialKey key) (server_at_rest (<[initialKey := true]> ∅) d)
        = Done resp (server_at_rest (<[initialKey := true]> ∅) d)
        ∧ resp ≠ {| code := StatusOK; payload := {["result"%string := JString EmptyString]} |}.
Proof.
  destruct (serve_all_at_rest reqs (<[initialKey := true]> ∅) ∅) as (resps & Hrun & _).
  assert (Hd : no_empty_string (store_after (<[initialKey := true]> ∅) reqs ∅)).
  { apply store_after_no_empty_string. intros k v Hkv. by rewrite lookup_empty in Hkv. }
  exists resps, (store_after (<[initialKey := true]> ∅) reqs ∅). split_and!.
  - erewrite bind_Done; [exact Hrun|reflexivity].
  - exact Hd.
  - intros key. unfold serve, get_request. cbn [route context].
    rewrite APIKeyMiddleware_at_rest.
    destruct (bool_decide _ && _).
    + rewrite getHandler_at_rest. eexists. split; [reflexivity|].
      destruct (store_after _ reqs ∅ !! _) as [value|] eqn:Hk; [|done].
      apply Hd in Hk as [_ Hv]. intros Hval. apply Hv.
      apply (f_equal (λ r : Response, payload r !! "result"%string)) in Hval.
      cbn [payload] in Hval. rewrite !lookup_singleton_eq in Hval. congruence.
    + eexists. split; [reflexivity|done].
Qed.
End api_sessions.

Section api_round_trip.
Import api.
Implicit Types (ks : gmap string bool) (d : gmap string string).
Implicit Types (apikey key value : string).

(** X8.  Through the API, with a registered key.  When the key is one path
    segment (not empty, no slash), a value that was set is read back, a
    deleted key is not found any more, and deleting it again answers 404; the
    five requests leave the store without the key.  When the key holds a
    slash, [set] stores it all the same, but no [get] and no [del] request
    for it reaches a handler, and the key stays in the store. *)
Theorem api_round_trip ks d apikey key value :
  apikey ≠ EmptyString → ks !! apikey = Some true →
  key ≠ EmptyString → value ≠ EmptyString →
  (routing.is_segment key = true →
   routing.serve_routed
     [Some (set_request apikey key value); routing.routed_get apikey key;
      routing.routed_del apikey key; routing.routed_get apikey key;
      routing.routed_del apikey key]
     (server_at_rest ks d)
   = Done [ Some {| code := StatusOK; payload := {["result"%string := JString "OK"]} |};
            Some {| code := StatusOK; payload := {["result"%string := JString value]} |};
            Some {| code := StatusOK; payload := {["result"%string := JString "OK"]} |};
            Some {| code := StatusNotFound;
                    payload := {["error"%string := JString "Key not found"]} |};
            Some {| code := StatusNotFound;
                    payload := {["error"%string := JString "Key not found"]} |} ]
       (server_at_rest ks (delete key d)))
  ∧ (routing.is_segment key = false →
     routing.serve_routed
       [Some (set_request apikey key value); routing.routed_get apikey key;
        routing.routed_del apikey key]
       (server_at_rest ks d)
     = Done [ Some {| code := StatusOK; payload := {["result"%string := JString "OK"]} |};
              None; None ]
         (server_at_rest ks (<[key := value]> d))).
Proof.
  intros Hapikey Hks Hkey Hvalue.
  assert (Hgate : ∀ params body (next : M Server Response) s,
    APIKeyMiddleware {| Header := with_key apikey; Params := params; Body := body |} next
      (server_at_rest ks s) = next (server_at_rest ks s)).
  { intros. rewrite APIKeyMiddleware_at_rest.
    unfold GetHeader, middleware.Header_Get, with_key. cbn [Header].
    rewrite lookup_singleton_eq, Hks. by rewrite bool_decide_eq_true_2. }
  assert (Hbind : ShouldBindJSON (Object key value) = inr (key, value)).
  { unfold ShouldBindJSON. by rewrite !decide_False. }
  assert (Hparam : ∀ body, Param {| Header := with_key apikey;
                                    Params := {["key"%string := key]};
                                    Body := body |} "key" = key).
  { intros. unfold Param. cbn [Params]. by rewrite lookup_singleton_eq. }
  assert (Hset : ∀ s, serve (set_request apikey key value) (server_at_rest ks s)
    = Done {| code := StatusOK; payload := {["result"%string := JString "OK"]} |}
        (server_at_rest ks (<[key := value]> s))).
  { intros. unfold serve, set_request; cbn [route context]. rewrite Hgate.
    rewrite setHandler_at_rest. cbn [Body]. by rewrite Hbind. }
  split; intros Hseg; unfold routing.routed_get, routing.routed_del; rewrite Hseg;
    cbn [routing.serve_routed].
  - erewrite bind_Done; [|apply Hset].
    erewrite bind_Done; [reflexivity|].
    erewrite bind_Done;
      [|unfold serve, get_request; cbn [route context]; rewrite Hgate;
        rewrite getHandler_at_rest, Hparam, lookup_insert_eq; reflexivity].
    erewrite bind_Done; [reflexivity|].
    erewrite bind_Done;
      [|unfold serve, del_request; cbn [route context]; rewrite Hgate;
        rewrite delHandler_at_rest, Hparam, lookup_insert_eq, delete_insert_eq; reflexivity].
    erewrite bind_Done; [reflexivity|].
    erewrite bind_Done;
      [|unfold serve, get_request; cbn [route context]; rewrite Hgate;
        rewrite getHandler_at_rest, Hparam, lookup_delete_eq; reflexivity].
    erewrite bind_Done; [reflexivity|].
    erewrite bind_Done;
      [|unfold serve, del_request; cbn [route context]; rewrite Hgate;
        rewrite delHandler_at_rest, Hparam, lookup_delete_eq, delete_delete_eq; reflexivity].
    reflexivity.
  - erewrite bind_Done; [|apply Hset]. reflexivity.
Qed.

(** A client holding the key registered at startup stores and removes a
    value under a plain key; under a key with a slash it stores a value that
    it can then neither read nor remove. *)
Lemma api_round_trip_witness :
  ("s3cret"%string ≠ EmptyString
   ∧ (<["s3cret"%string := true]> ∅ : gmap string bool) !! "s3cret"%string = Some true
   ∧ "colour"%string ≠ EmptyString ∧ "blue"%string ≠ EmptyString
   ∧ routing.is_segment "colour" = true
   ∧ "a/b"%string ≠ EmptyString
   ∧ routing.is_segment "a/b" = false)
  ∧ (routing.serve_routed
       [Some (set_request "s3cret" "a/b" "blue"); routing.routed_get "s3cret" "a/b";
        routing.routed_del "s3cret" "a/b"]
       (server_at_rest (<["s3cret"%string := true]> ∅) ∅)
     = Done [ Some {| code := 200; payload := {["result"%string := JString "OK"]} |};
              None; None ]
         (server_at_rest (<["s3cret"%string := true]> ∅)
            (<["a/b"%string := "blue"%string]> ∅)))
  ∧ ∃ s,
      routing.serve_routed
        [Some (set_request "s3cret" "colour" "blue"); routing.routed_get "s3cret" "colour";
         routing.routed_del "s3cret" "colour"; routing.routed_get "s3cret" "colour";
         routing.routed_del "s3cret" "colour"]
        (server_at_rest (<["s3cret"%string := true]> ∅) ∅)
      = Done [ Some {| code := 200; payload := {["result"%string := JString "OK"]} |};
               Some {| code := 200; payload := {["result"%string := JString "blue"]} |};
               Some {| code := 200; payload := {["result"%string := JString "OK"]} |};
               Some {| code := 404;
                       payload := {["error"%string := JString "Key not found"]} |};
               Some {| code := 404;
                       payload := {["error"%string := JString "Key not found"]} |} ]
          s.
Proof.
  assert (H1 : "s3cret"%string ≠ EmptyString) by discriminate.
  assert (H2 : (<["s3cret"%string := true]> ∅ : gmap string bool) !! "s3cret"%string
               = Some true) by apply lookup_insert_eq.
  assert (H3 : "colour"%string ≠ EmptyString) by discriminate.
  assert (H4 : "blue"%string ≠ EmptyString) by discriminate.
  assert (H5 : routing.is_segment "colour" = true) by (vm_compute; reflexivity).
  assert (H6 : "a/b"%string ≠ EmptyString) by discriminate.
  assert (H7 : routing.is_segment "a/b" = false) by (vm_compute; reflexivity).
  split; [by split_and!|]. split.
  - exact (proj2 (api_round_trip _ ∅ _ _ _ H1 H2 H6 H4) H7).
  - eexists. exact (proj1 (api_round_trip _ ∅ _ _ _ H1 H2 H3 H4) H5).
Defined.

(** X9.  A [set] request whose key or value is missing or empty is answered 400,
    naming the fields that failed, and changes nothing, even from a client
    whose key is registered. *)
Theorem set_needs_key_and_value ks d apikey key value :
  apikey ≠ EmptyString → ks !! apikey = Some true →
  key = EmptyString ∨ value = EmptyString →
  ∃ failed,
    serve (set_request apikey key value) (server_at_rest ks d)
    = Done {| code := StatusBadRequest;
              payload := {["error"%string := JError (RequiredFailed failed)]} |}
        (server_at_rest ks d)
    ∧ failed ≠ []
    ∧ ("Key"%string ∈ failed ↔ key = EmptyString)
    ∧ ("Value"%string ∈ failed ↔ value = EmptyString).
Proof.
  intros Hapikey Hks Hempty.
  unfold serve, set_request. cbn [route context].
  rewrite APIKeyMiddleware_at_rest.
  unfold GetHeader, middleware.Header_Get, with_key. cbn [Header].
  rewrite lookup_singleton_eq, Hks, bool_decide_eq_true_2 by done. cbn [andb default].
  rewrite setHandler_at_rest. cbn [Body]. unfold ShouldBindJSON.
  destruct (decide (key = EmptyString)) as [Hk|Hk],
           (decide (value = EmptyString)) as [Hv|Hv]; cbn [app].
  - eexists. split_and!; [reflexivity|done|set_solver|set_solver].
  - eexists. split_and!; [reflexivity|done|set_solver|].
    split; [|done]. intros Hin. apply list_elem_of_singleton in Hin. discriminate.
  - eexists. split_and!; [reflexivity|done| |set_solver].
    split; [|done]. intros Hin. apply list_elem_of_singleton in Hin. discriminate.
  - tauto.
Qed.

(** A value may not be empty. *)
Lemma set_needs_key_and_value_witness :
  ("s3cret"%string ≠ EmptyString
   ∧ (<["s3cret"%string := true]> ∅ : gmap string bool) !! "s3cret"%string = Some true
   ∧ ("colour"%string = EmptyString ∨ EmptyString = EmptyString))
  ∧ serve (set_request "s3cret" "colour" "")
      (server_at_rest (<["s3cret"%string := true]> ∅) ∅)
    = Done {| code := 400;
              payload := {["error"%string := JError (RequiredFailed ["Value"%string])]} |}
        (server_at_rest (<["s3cret"%string := true]> ∅) ∅).
Proof.
  assert (H1 : "s3cret"%string ≠ EmptyString) by discriminate.
  assert (H2 : (<["s3cret"%string := true]> ∅ : gmap string bool) !! "s3cret"%string
               = Some true) by apply lookup_insert_eq.
  assert (H3 : "colour"%string = EmptyString ∨ EmptyString = EmptyString) by (by right).
  split; [by split_and!|].
  destruct (set_needs_key_and_value _ ∅ _ _ _ H1 H2 H3) as (failed & Hrun & _).
  rewrite Hrun. vm_compute in Hrun. injection Hrun as <-. reflexivity.
Defined.
End api_round_trip.

(** * More on the registry *)

Section registry_more.
Import middleware registry_use.
Implicit Types (cs : gmap string Client) (hp : gmap ptr rate.Limiter).
Implicit Types (ip : string) (c : Client) (m : RWMutex) (t e b : Z) (r : Q).
Implicit Types (w : World) (order : list (string * Client)).

(** How a call of [GetLimiter] can leave the world: parked in its own
    [Lock] with nothing but the mutex touched, with the entry of [ip]
    stamped, or parked in [AddClient] with one more bucket on the heap. *)
Lemma GetLimiter_final w ip :
  final (GetLimiter ip w) = set_mu (parked_in_Lock (mu (rl w))) w
  ∨ (∃ c, clients (rl w) !! ip = Some c
          ∧ final (GetLimiter ip w)
            = set_clients (insert ip {| limiter := limiter c; lastSeen := clock w |}) w)
  ∨ final (GetLimiter ip w)
    = set_mu write_locked
        (set_heap (insert (fresh (dom (heap w)))
                     (rate.NewLimiter (rate (rl w)) (burst (rl w)) (clock w))) w).
Proof.
  destruct w as [t hp [cs [wr n p] r b e]].
  destruct wr; [by left|]. destruct p; [by left|].
  destruct n as [|n]; [|by left].
  destruct (cs !! ip) as [c|] eqn:Hc.
  - right; left. exists c. split; [done|].
    by rewrite (GetLimiter_present _ _ _ _ _ _ _ _ Hc).
  - right; right. by rewrite (GetLimiter_absent _ _ _ _ _ _ _ Hc).
Qed.

Lemma AddClient_final w ip :
  final (AddClient ip w)
  = set_mu (parked_in_Lock (mu (rl w)))
      (set_heap (insert (fresh (dom (heap w)))
                   (rate.NewLimiter (rate (rl w)) (burst (rl w)) (clock w))) w)
  ∨ final (AddClient ip w)
    = set_clients (insert ip {| limiter := fresh (dom (heap w)); lastSeen := clock w |})
        (set_heap (insert (fresh (dom (heap w)))
                     (rate.NewLimiter (rate (rl w)) (burst (rl w)) (clock w))) w).
Proof.
  destruct w as [t hp [cs [wr n p] r b e]].
  destruct wr; [by left|]. destruct p; [by left|].
  destruct n as [|n]; [right|left]; reflexivity.
Qed.

Lemma CleanupStaleClients_final w order :
  final (CleanupStaleClients order w) = set_mu (parked_in_Lock (mu (rl w))) w
  ∨ final (CleanupStaleClients order w)
    = set_clients (λ cs, foldl (λ acc kv, if expiration (rl w) <? time.Sub (clock w) (lastSeen kv.2)
                                          then delete kv.1 acc else acc) cs order) w.
Proof.
  destruct w as [t hp [cs [wr n p] r b e]].
  destruct wr; [by left|]. destruct p; [by left|].
  destruct n as [|n]; [right|by left].
  unfold CleanupStaleClients.
  erewrite bind_Done; [|reflexivity]. cbn [set_mu get_mu rl mu clock heap clients
    rate burst expiration].
  erewrite bind_Done; [|apply sweep_loop]. reflexivity.
Qed.

Lemma sweep_fold_subseteq (P : Client → bool) order cs :
  foldl (λ acc kv, if P kv.2 then delete kv.1 acc else acc) cs order ⊆ cs.
Proof.
  apply map_subseteq_spec. intros ip c. rewrite sweep_fold_lookup.
  by case_bool_decide.
Qed.

(** The entries after a call that the package makes are among the entries
    before it. *)
Lemma attempt_from_the_package (call : RegistryCall) w :
  from_the_package call = true →
  dom (clients (rl (final (attempt call w)))) ⊆ dom (clients (rl w)).
Proof.
  destruct call as [ip|ip|order]; [|done|]; intros _; cbn [attempt].
  - assert (Hf : final ((GetLimiter ip ;;; ret tt) w) = final (GetLimiter ip w)).
    { unfold bind. by destruct (GetLimiter ip w). }
    rewrite Hf.
    destruct (GetLimiter_final w ip) as [->|[(c & Hc & ->)| ->]]; [done| |done].
    destruct w as [t hp [cs m r b e]]. cbn [set_clients rl clients] in *.
    rewrite dom_insert. apply elem_of_dom_2 in Hc. set_solver.
  - destruct (CleanupStaleClients_final w order) as [->| ->]; [done|].
    destruct w as [t hp [cs m r b e]]. cbn [set_clients rl clients expiration clock].
    apply subseteq_dom.
    apply (sweep_fold_subseteq (λ c, e <? time.Sub t (lastSeen c))).
Qed.

(** X10.  Through the handler and the background sweep the registry never gains an
    entry: [GetLimiter] never files one, however it ends, and after any
    series of [GetLimiter] and [CleanupStaleClients] calls the identities
    known are among those known before.  The global registry, empty at the
    start, therefore stays empty. *)
Theorem registry_never_gains_an_entry (calls : list RegistryCall) w :
  Forall (λ call, from_the_package call = true) calls →
  dom (clients (rl (attempts calls w))) ⊆ dom (clients (rl w))
  ∧ (∀ ip, dom (clients (rl (final (GetLimiter ip w)))) ⊆ dom (clients (rl w)))
  ∧ ∀ t hp, clients (rl (attempts calls (mkWorld t hp global_limiter))) = ∅.
Proof.
  intros Hcalls.
  assert (Hdom : ∀ w', dom (clients (rl (attempts calls w'))) ⊆ dom (clients (rl w'))).
  { induction Hcalls as [|call calls Hcall _ IH]; intros w'; [done|].
    cbn [attempts]. etrans; [apply IH|]. by apply attempt_from_the_package. }
  split_and!.
  - apply Hdom.
  - intros ip. pose proof (attempt_from_the_package (CallGetLimiter ip) w eq_refl) as Hg.
    cbn [attempt] in Hg.
    assert (Hf : final ((GetLimiter ip ;;; ret tt) w) = final (GetLimiter ip w)).
    { unfold bind. by destruct (GetLimiter ip w). }
    by rewrite Hf in Hg.
  - intros t hp. apply dom_empty_iff_L.
    pose proof (Hdom (mkWorld t hp global_limiter)) as Hsub.
    cbn [rl clients global_limiter NewIPRateLimiter] in Hsub.
    rewrite dom_empty_L in Hsub. set_solver.
Qed.

(** A request, then a sweep, then another request. *)
Lemma registry_never_gains_an_entry_witness :
  Forall (λ call, from_the_package call = true)
    [CallGetLimiter "198.51.100.4:51234"; CallCleanup []; CallGetLimiter "203.0.113.7:80"]
  ∧ clients (rl (attempts
       [CallGetLimiter "198.51.100.4:51234"; CallCleanup []; CallGetLimiter "203.0.113.7:80"]
       (mkWorld 0 ∅ global_limiter))) = ∅.
Proof.
  assert (Hcalls : Forall (λ call, from_the_package call = true)
    [CallGetLimiter "198.51.100.4:51234"; CallCleanup []; CallGetLimiter "203.0.113.7:80"])
    by (repeat constructor).
  split; [exact Hcalls|].
  exact (proj2 (proj2 (registry_never_gains_an_entry _ (mkWorld 0 ∅ global_limiter) Hcalls)) 0 ∅).
Defined.
End registry_more.

Section registry_buckets.
Import middleware.
Implicit Types (cs : gmap string Client) (hp : gmap ptr rate.Limiter).
Implicit Types (ip : string) (c : Client) (m : RWMutex) (t e b : Z) (r : Q).
Implicit Types (w : World) (order : list (string * Client)).

Lemma fresh_unallocated hp : hp !! fresh (dom hp) = None.
Proof. apply not_elem_of_dom, is_fresh. Qed.

Lemma heap_ok_alloc w lim :
  heap_ok w → heap_ok (set_heap (insert (fresh (dom (heap w))) lim) w).
Proof.
  intros Hok ip c Hc. cbn [set_heap heap rl] in *.
  destruct (Hok ip c Hc) as [lim' Hl].
  destruct (decide (fresh (dom (heap w)) = limiter c)) as [Heq|Hne].
  - rewrite <- Heq, fresh_unallocated in Hl. done.
  - rewrite lookup_insert_ne by done. by eexists.
Qed.

Lemma attempt_heap_ok (call : RegistryCall) w :
  heap_ok w → heap_ok (final (attempt call w)).
Proof.
  intros Hok. destruct call as [ip|ip|order]; cbn [attempt].
  - assert (Hf : final ((GetLimiter ip ;;; ret tt) w) = final (GetLimiter ip w)).
    { unfold bind. by destruct (GetLimiter ip w). }
    rewrite Hf.
    destruct (GetLimiter_final w ip) as [->|[(c & Hc & ->)| ->]]; [done| |].
    + intros ip' c' Hc'. destruct w as [t hp [cs m r b e]].
      cbn [set_clients rl clients heap] in *.
      apply lookup_insert_Some in Hc' as [[_ <-]|[_ Hc']]; [|by eapply (Hok ip')].
      by apply (Hok ip c).
    + pose proof (heap_ok_alloc w (rate.NewLimiter (rate (rl w)) (burst (rl w)) (clock w)) Hok)
        as Hok'.
      intros ip' c' Hc'. by apply (Hok' ip' c').
  - assert (Hf : final ((AddClient ip ;;; ret tt) w) = final (AddClient ip w)).
    { unfold bind. by destruct (AddClient ip w). }
    rewrite Hf.
    pose proof (heap_ok_alloc w (rate.NewLimiter (rate (rl w)) (burst (rl w)) (clock w)) Hok)
      as Hok'.
    destruct (AddClient_final w ip) as [->| ->]; [done|].
    intros ip' c' Hc'. destruct w as [t hp [cs m r b e]].
    cbn [set_clients set_heap rl clients heap] in *.
    apply lookup_insert_Some in Hc' as [[_ <-]|[_ Hc']]; [|by eapply (Hok' ip')].
    cbn [limiter]. rewrite lookup_insert_eq. by eexists.
  - destruct (CleanupStaleClients_final w order) as [->| ->]; [done|].
    intros ip' c' Hc'. destruct w as [t hp [cs m r b e]].
    cbn [set_clients rl clients heap expiration clock] in *.
    apply (Hok ip' c'). cbn [rl clients].
    eapply lookup_weaken; [exact Hc'|].
    apply (sweep_fold_subseteq (λ c, e <? time.Sub t (lastSeen c))).
Qed.

(** X11.  The registry never points to a bucket that is not there: if every entry
    points to an allocated bucket, so it is after any series of calls on the
    registry, however each of them ends; and then [Allow] on the bucket that
    [GetLimiter] returns does not fail on a missing bucket. *)
Theorem registry_points_to_buckets (calls : list RegistryCall) w ip :
  heap_ok w →
  heap_ok (attempts calls w)
  ∧ ∀ s, (l <- GetLimiter ip ;; Limiter_Allow l) (attempts calls w) ≠ Crashed s.
Proof.
  intros Hok.
  assert (Hok' : heap_ok (attempts calls w)).
  { revert w Hok. induction calls as [|call calls IH]; intros w Hok; [done|].
    cbn [attempts]. by apply IH, attempt_heap_ok. }
  split; [done|]. intros s.
  destruct (GetLimiter ip (attempts calls w)) as [l w1| |] eqn:Hget.
  - erewrite bind_Done; [|exact Hget].
    apply GetLimiter_returns in Hget as (c & Hc & -> & _ & ->).
    destruct (Hok' ip c Hc) as [lim Hlim].
    unfold Limiter_Allow, bind, time_Now, gets, modify, ret.
    cbn [set_clients heap]. by rewrite Hlim.
  - by erewrite bind_Blocked.
  - exfalso. revert Hget. generalize (attempts calls w). intros w0 Hget.
    destruct w0 as [t hp [cs [wr n p] r b e]].
    destruct wr; [by rewrite GetLimiter_locked in Hget|].
    destruct p; [done|]. destruct n as [|n]; [|done].
    destruct (cs !! ip) as [c|] eqn:Hc.
    + by rewrite (GetLimiter_present _ _ _ _ _ _ _ _ Hc) in Hget.
    + by rewrite (GetLimiter_absent _ _ _ _ _ _ _ Hc) in Hget.
Qed.

(** From the fresh global registry, after two clients were added. *)
Lemma registry_points_to_buckets_witness :
  heap_ok (mkWorld 0 ∅ global_limiter)
  ∧ heap_ok (attempts [CallAddClient "198.51.100.4:51234"; CallAddClient "203.0.113.7:80"]
               (mkWorld 0 ∅ global_limiter)).
Proof.
  assert (Hok : heap_ok (mkWorld 0 ∅ global_limiter)).
  { intros ip c Hc. cbn in Hc. by rewrite lookup_empty in Hc. }
  split; [exact Hok|].
  exact (proj1 (registry_points_to_buckets _ _ EmptyString Hok)).
Defined.

(** X12.  [AddClient] is the path that works: called with the lock free, it files
    the identity under a bucket that did not exist before, full and stamped
    with the instant of the call, replacing whatever entry the identity had;
    and a [GetLimiter] that follows returns that very bucket. *)
Theorem AddClient_then_GetLimiter t hp cs r b e ip :
  ∃ l,
    (AddClient ip ;;; GetLimiter ip) (mkWorld t hp (mkIPRateLimiter cs unlocked r b e))
    = Done l
        (mkWorld t (<[l := rate.NewLimiter r b t]> hp)
           (mkIPRateLimiter (<[ip := {| limiter := l; lastSeen := t |}]> cs) unlocked r b e))
    ∧ hp !! l = None
    ∧ ∀ c, cs !! ip = Some c → is_Some (hp !! limiter c) → l ≠ limiter c.
Proof.
  exists (fresh (dom hp)). split_and!.
  - erewrite bind_Done; [|apply AddClient_unlocked].
    rewrite (GetLimiter_present _ _ _ _ _ _ _
               {| limiter := fresh (dom hp); lastSeen := t |}) by apply lookup_insert_eq.
    cbn [limiter]. by rewrite insert_insert_eq.
  - apply fresh_unallocated.
  - intros c _ [lim Hlim] Heq. rewrite <- Heq, fresh_unallocated in Hlim. done.
Qed.
End registry_buckets.

(** * More on the sweep *)

Section sweep_more.
Import middleware registry_use.
Implicit Types (cs : gmap string Client) (hp : gmap ptr rate.Limiter).
Implicit Types (ip : string) (c : Client) (t d b : Z) (r : Q).
Implicit Types (order : list (string * Client)).

(** The entries a sweep at instant [now] keeps. *)
Lemma swept_lookup now order cs ip :
  range_of cs order →
  foldl (λ acc kv, if 1 * time.Hour <? time.Sub now (lastSeen kv.2)
                   then delete kv.1 acc else acc) cs order !! ip
  = match cs !! ip with
    | Some c => if stale now time.Hour c then None else Some c
    | None => None
    end.
Proof.
  intros Hrange.
  rewrite (sweep_fold_range (λ c, 1 * time.Hour <? time.Sub now (lastSeen c))) by done.
  destruct (cs !! ip) as [c|]; [|done]. by rewrite since_exceeds_hour.
Qed.

(** X13.  A second sweep at the same instant removes nothing, in whatever order
    the runtime ranges this time; a sweep never adds or alters an entry; and
    an entry last seen exactly one hour before the sweep is kept. *)
Theorem sweep_twice_is_sweep_once r b cs now hp order order' :
  range_of cs order →
  ∃ cs',
    CleanupStaleClients order (mkWorld now hp (registry_at_rest r b cs))
    = Done tt (mkWorld now hp (registry_at_rest r b cs'))
    ∧ cs' ⊆ cs
    ∧ (range_of cs' order' →
       CleanupStaleClients order' (mkWorld now hp (registry_at_rest r b cs'))
       = Done tt (mkWorld now hp (registry_at_rest r b cs')))
    ∧ ∀ ip c, cs !! ip = Some c → lastSeen c = now - time.Hour → cs' !! ip = Some c.
Proof.
  intros Hrange. eexists. split; [apply CleanupStaleClients_at_rest|]. split_and!.
  - apply (sweep_fold_subseteq (λ c, 1 * time.Hour <? time.Sub now (lastSeen c))).
  - intros Hrange'. rewrite CleanupStaleClients_at_rest. do 3 f_equal.
    apply map_eq. intros ip. rewrite (swept_lookup now order') by done.
    rewrite (swept_lookup now order) by done.
    destruct (cs !! ip) as [c|]; [|done].
    destruct (stale now time.Hour c) eqn:Hs; [done|]. by rewrite Hs.
  - intros ip c Hc Hlast. rewrite swept_lookup, Hc by done. unfold stale.
    rewrite bool_decide_eq_false_2; [done|]. lia.
Qed.

Lemma sweep_twice_is_sweep_once_witness :
  range_of (<[scenarios.visitor := scenarios.first_entry]> ∅)
    [(scenarios.visitor, scenarios.first_entry)]
  ∧ ∃ cs',
      CleanupStaleClients [(scenarios.visitor, scenarios.first_entry)]
        (mkWorld time.Hour ∅
           (registry_at_rest 1 5 (<[scenarios.visitor := scenarios.first_entry]> ∅)))
      = Done tt (mkWorld time.Hour ∅ (registry_at_rest 1 5 cs'))
      ∧ cs' !! scenarios.visitor = Some scenarios.first_entry.
Proof.
  assert (Hrange : range_of (<[scenarios.visitor := scenarios.first_entry]> ∅)
                     [(scenarios.visitor, scenarios.first_entry)]).
  { unfold range_of. by rewrite insert_empty, map_to_list_singleton. }
  split; [exact Hrange|].
  destruct (sweep_twice_is_sweep_once 1 5 _ time.Hour ∅ _ [] Hrange)
    as (cs' & Hrun & _ & _ & Hedge).
  exists cs'. split; [exact Hrun|].
  apply Hedge; [apply lookup_insert_eq|reflexivity].
Defined.

Lemma sweeper_turn_slept_at_rest slept order t hp cs r b :
  0 <= slept →
  sweeper_turn_slept slept order (mkWorld t hp (registry_at_rest r b cs))
  = Done tt
      (mkWorld (t + slept) hp
         (registry_at_rest r b
            (foldl (λ acc kv, if 1 * time.Hour <? time.Sub (t + slept) (lastSeen kv.2)
                              then delete kv.1 acc else acc) cs order))).
Proof.
  intros Hs. unfold sweeper_turn_slept. erewrite bind_Done; [|reflexivity].
  cbn [set_clock clock heap rl]. rewrite Z.max_r by done.
  apply CleanupStaleClients_at_rest.
Qed.

(** X14.  One turn of the background loop, started at instant [t] and sleeping
    for [slept], at least the hour asked, removes exactly the entries last
    seen more than an hour before it wakes up; with a sleep of exactly one
    hour, as [sweeper_turn] has it, these are the entries last seen before
    [t].  When no entry carries a timestamp later than [t], two turns in a
    row without an access in between leave the registry empty: an idle
    client is forgotten by the second sweep. *)
Theorem sweeper_forgets_idle_clients r b cs t hp order order' slept slept' :
  time.Hour <= slept → time.Hour <= slept' →
  range_of cs order →
  (∀ ip c, cs !! ip = Some c → lastSeen c <= t) →
  ∃ cs',
    sweeper_turn_slept slept order (mkWorld t hp (registry_at_rest r b cs))
    = Done tt (mkWorld (t + slept) hp (registry_at_rest r b cs'))
    ∧ (∀ ip, cs' !! ip = match cs !! ip with
                         | Some c => if bool_decide (lastSeen c < t + slept - time.Hour)
                                     then None else Some c
                         | None => None
                         end)
    ∧ (range_of cs' order' →
       sweeper_turn_slept slept' order' (mkWorld (t + slept) hp (registry_at_rest r b cs'))
       = Done tt (mkWorld (t + slept + slept') hp (registry_at_rest r b ∅)))
    ∧ sweeper_turn order = sweeper_turn_slept time.Hour order.
Proof.
  intros Hslept Hslept' Hrange Hpast.
  assert (0 < time.Hour) by done.
  eexists. split; [apply sweeper_turn_slept_at_rest; lia|].
  assert (Hfirst : ∀ ip,
    foldl (λ acc kv, if 1 * time.Hour <? time.Sub (t + slept) (lastSeen kv.2)
                     then delete kv.1 acc else acc) cs order !! ip
    = match cs !! ip with
      | Some c => if bool_decide (lastSeen c < t + slept - time.Hour) then None else Some c
      | None => None
      end).
  { intros ip. by rewrite swept_lookup. }
  split_and!; [exact Hfirst| |reflexivity].
  intros Hrange'. rewrite sweeper_turn_slept_at_rest by lia. do 3 f_equal.
  apply map_eq. intros ip. rewrite swept_lookup, Hfirst, lookup_empty by done.
  destruct (cs !! ip) as [c|] eqn:Hc; [|done].
  case_bool_decide; [done|]. unfold stale.
  rewrite bool_decide_eq_true_2; [done|].
  pose proof (Hpast ip c Hc). lia.
Qed.

Lemma sweeper_forgets_idle_clients_witness :
  (time.Hour <= time.Hour
   ∧ range_of (<[scenarios.visitor := scenarios.first_entry]> ∅)
       [(scenarios.visitor, scenarios.first_entry)]
   ∧ ∀ ip c, (<[scenarios.visitor := scenarios.first_entry]> ∅ : gmap string Client) !! ip
             = Some c → lastSeen c <= 0)
  ∧ ∃ w,
      (sweeper_turn [(scenarios.visitor, scenarios.first_entry)] ;;;
       sweeper_turn [(scenarios.visitor, scenarios.first_entry)])
        (mkWorld 0 ∅ (registry_at_rest 1 5 (<[scenarios.visitor := scenarios.first_entry]> ∅)))
      = Done tt w
      ∧ clients (rl w) = ∅.
Proof.
  assert (Hhour : time.Hour <= time.Hour) by reflexivity.
  assert (Hrange : range_of (<[scenarios.visitor := scenarios.first_entry]> ∅)
                     [(scenarios.visitor, scenarios.first_entry)]).
  { unfold range_of. by rewrite insert_empty, map_to_list_singleton. }
  assert (Hpast : ∀ ip c,
    (<[scenarios.visitor := scenarios.first_entry]> ∅ : gmap string Client) !! ip = Some c →
    lastSeen c <= 0).
  { intros ip c [[_ <-]|[_ Hc]]%lookup_insert_Some; [done|by rewrite lookup_empty in Hc]. }
  split; [by split_and!|].
  destruct (sweeper_forgets_idle_clients 1 5 _ 0 ∅ _
              [(scenarios.visitor, scenarios.first_entry)] _ _ Hhour Hhour Hrange Hpast)
    as (cs' & Hone & Hall & Htwo & Hsame).
  assert (Hcs' : cs' = <[scenarios.visitor := scenarios.first_entry]> ∅).
  { apply map_eq. intros ip. rewrite Hall.
    destruct (decide (ip = scenarios.visitor)) as [->|Hne].
    - by rewrite lookup_insert_eq.
    - by rewrite lookup_insert_ne, lookup_empty. }
  subst cs'. specialize (Htwo Hrange). rewrite <- Hsame in Hone, Htwo.
  eexists. split.
  - erewrite bind_Done; [|exact Hone]. exact Htwo.
  - reflexivity.
Defined.

(** X15.  An access keeps a client: an entry reached by [GetLimiter] at instant
    [t] is still there, with the same bucket, after a sweep made up to one
    hour later. *)
Theorem access_postpones_the_sweep t hp cs r b ip c d order :
  cs !! ip = Some c → 0 <= d <= time.Hour →
  range_of (<[ip := {| limiter := limiter c; lastSeen := t |}]> cs) order →
  ∃ w,
    (GetLimiter ip ;;; time_Sleep d ;;; CleanupStaleClients order ;;;
     gets (λ w, clients (rl w) !! ip))
      (mkWorld t hp (registry_at_rest r b cs))
    = Done (Some {| limiter := limiter c; lastSeen := t |}) w.
Proof.
  intros Hc Hd Hrange.
  erewrite bind_Done; [|apply (GetLimiter_present _ _ _ _ _ _ _ _ Hc)].
  erewrite bind_Done; [|reflexivity].
  erewrite bind_Done; [|apply CleanupStaleClients_at_rest].
  eexists. unfold gets. f_equal. cbn [rl clients registry_at_rest].
  rewrite swept_lookup, lookup_insert_eq by done. unfold stale. cbn [lastSeen].
  rewrite bool_decide_eq_false_2; [done|]. cbn [clock]. lia.
Qed.

Lemma access_postpones_the_sweep_witness :
  ((<[scenarios.visitor := scenarios.first_entry]> ∅ : gmap string Client)
     !! scenarios.visitor = Some scenarios.first_entry
   ∧ 0 <= time.Hour <= time.Hour
   ∧ range_of (<[scenarios.visitor := {| limiter := 1%positive; lastSeen := 7 * time.Hour |}]>
                 (<[scenarios.visitor := scenarios.first_entry]> ∅))
       [(scenarios.visitor, {| limiter := 1%positive; lastSeen := 7 * time.Hour |})])
  ∧ ∃ w,
      (GetLimiter scenarios.visitor ;;; time_Sleep time.Hour ;;;
       CleanupStaleClients
         [(scenarios.visitor, {| limiter := 1%positive; lastSeen := 7 * time.Hour |})] ;;;
       gets (λ w, clients (rl w) !! scenarios.visitor))
        (mkWorld (7 * time.Hour) ∅
           (registry_at_rest 1 5 (<[scenarios.visitor := scenarios.first_entry]> ∅)))
      = Done (Some {| limiter := 1%positive; lastSeen := 7 * time.Hour |}) w.
Proof.
  assert (H1 : (<[scenarios.visitor := scenarios.first_entry]> ∅ : gmap string Client)
                 !! scenarios.visitor = Some scenarios.first_entry)
    by apply lookup_insert_eq.
  assert (H2 : 0 <= time.Hour <= time.Hour) by (vm_compute; split; discriminate).
  assert (H3 : range_of
    (<[scenarios.visitor := {| limiter := 1%positive; lastSeen := 7 * time.Hour |}]>
       (<[scenarios.visitor := scenarios.first_entry]> ∅))
    [(scenarios.visitor, {| limiter := 1%positive; lastSeen := 7 * time.Hour |})]).
  { unfold range_of. by rewrite insert_insert_eq, insert_empty, map_to_list_singleton. }
  split; [by split_and!|].
  exact (access_postpones_the_sweep (7 * time.Hour) ∅ _ 1 5 _ _ _ _ H1 H2 H3).
Defined.
End sweep_more.

(** * More on the admission gate *)

Section gate_more.
Import middleware.
Context {D : Type}.
Implicit Types (next : @Handler D) (req : Request) (w : ResponseWriter).
Implicit Types (s : World * D) (l : ptr).

(** X16.  When [Allow] returns true the request goes on to the wrapped handler,
    once, with the response writer still untouched; the wrapped handler finds
    the rest of the server as it was before the request, the entry of the
    identity stamped, and the identity's bucket as [Allow] left it. *)
Theorem admitted_request_reaches_next next req w s0 s1 s2 l :
  lift (GetLimiter (clientIP req)) s0 = Done l s1 →
  lift (Limiter_Allow l) s1 = Done true s2 →
  RateLimitMiddleware next req w s0 = next req w s2
  ∧ s2.2 = s0.2
  ∧ clock s2.1 = clock s0.1
  ∧ ∃ c lim,
      clients (rl s0.1) !! clientIP req = Some c
      ∧ heap s0.1 !! limiter c = Some lim
      ∧ rl s2.1 = rl s1.1
      ∧ clients (rl s2.1)
        = <[clientIP req := {| limiter := limiter c; lastSeen := clock s0.1 |}]>
            (clients (rl s0.1))
      ∧ heap s2.1 = <[limiter c := (rate.Allow (clock s0.1) lim).2]> (heap s0.1).
Proof.
  intros Hget Hallow.
  assert (Hrun : RateLimitMiddleware next req w s0 = next req w s2).
  { unfold RateLimitMiddleware.
    erewrite bind_Done; [|reflexivity].
    erewrite bind_Done; [|exact Hget].
    erewrite bind_Done; [|exact Hallow]. reflexivity. }
  apply lift_Done in Hget as [Hget Hd1], Hallow as [Hallow Hd2].
  apply GetLimiter_returns in Hget as (c & Hc & -> & Hmu & Hw1).
  apply Limiter_Allow_returns in Hallow as (lim & Hlim & _ & Hw2).
  rewrite Hw1 in Hlim, Hw2.
  cbn [set_clients set_heap heap clock rl clients] in *.
  split_and!; [exact Hrun|congruence|by rewrite Hw2|].
  exists c, lim. rewrite Hw2, Hw1. by split_and!.
Qed.
End gate_more.

Section gate_more_scenarios.
Import middleware scenarios.

(** The first request of a visitor whose bucket is full reaches the store. *)
Lemma admitted_request_reaches_next_witness :
  ∃ s1 s2,
    lift (GetLimiter (clientIP request_from_address)) visited_server = Done 1%positive s1
    ∧ lift (Limiter_Allow 1%positive) s1 = Done true s2
    ∧ RateLimitMiddleware (store_set "k" "v") request_from_address fresh_response
        visited_server
      = store_set "k" "v" request_from_address fresh_response s2
    ∧ s2.2 = main.NewLunarDB.
Proof.
  exists (final (lift (GetLimiter (clientIP request_from_address)) visited_server)).
  exists (final (lift (Limiter_Allow 1%positive)
            (final (lift (GetLimiter (clientIP request_from_address)) visited_server)))).
  assert (Hget :
    lift (GetLimiter (clientIP request_from_address)) visited_server
    = Done 1%positive
        (final (lift (GetLimiter (clientIP request_from_address)) visited_server)))
    by (vm_compute; reflexivity).
  assert (Hallow :
    lift (Limiter_Allow 1%positive)
      (final (lift (GetLimiter (clientIP request_from_address)) visited_server))
    = Done true
        (final (lift (Limiter_Allow 1%positive)
           (final (lift (GetLimiter (clientIP request_from_address)) visited_server)))))
    by (vm_compute; reflexivity).
  pose proof (admitted_request_reaches_next (store_set "k" "v") request_from_address
                fresh_response _ _ _ _ Hget Hallow) as (Hrun & Hstore & _).
  split_and!; [exact Hget|exact Hallow|exact Hrun|exact Hstore].
Defined.
End gate_more_scenarios.

(** * Bearer tokens *)

Section bearer.
Import middleware auth gostrings.
Implicit Types (s a b : string) (sep : Ascii.ascii).

Lemma Split_not_nil s sep : Split s sep ≠ [].
Proof.
  destruct s as [|ch rest]; [done|]. cbn [Split].
  destruct (Ascii.eqb ch sep); [done|]. by destruct (Split rest sep).
Qed.

Lemma Split_without_sep s sep : contains s sep = false → Split s sep = [s].
Proof.
  induction s as [|ch rest IH]; [done|]. cbn [contains Split].
  intros [Hch Hrest]%orb_false_iff. rewrite Hch, (IH Hrest). done.
Qed.

Lemma Split_at_first_sep a sep s :
  contains a sep = false → Split (a ++ String sep s) sep = a :: Split s sep.
Proof.
  induction a as [|ch rest IH].
  - intros _. change (EmptyString ++ String sep s)%string with (String sep s).
    cbn [Split]. by rewrite Ascii.eqb_refl.
  - cbn [contains]. intros [Hch Hrest]%orb_false_iff.
    change (String ch rest ++ String sep s)%string
      with (String ch (rest ++ String sep s)%string).
    cbn [Split]. by rewrite Hch, (IH Hrest).
Qed.

Lemma Split_pieces s sep : Forall (λ piece, contains piece sep = false) (Split s sep).
Proof.
  induction s as [|ch rest IH]; cbn [Split]; [by repeat constructor|].
  destruct (Ascii.eqb ch sep) eqn:Hch; [by constructor|].
  destruct (Split rest sep) as [|piece pieces]; [by repeat constructor; cbn; rewrite Hch|].
  apply Forall_cons in IH as [Hpiece Hpieces].
  constructor; [|done]. cbn [contains]. by rewrite Hch, Hpiece.
Qed.

Lemma Join_cons (piece : string) (pieces : list string) sep :
  pieces ≠ [] → Join (piece :: pieces) sep = (piece ++ String sep (Join pieces sep))%string.
Proof. by destruct pieces. Qed.

Lemma Join_Split s sep : Join (Split s sep) sep = s.
Proof.
  induction s as [|ch rest IH]; [done|]. cbn [Split].
  destruct (Ascii.eqb ch sep) eqn:Hch.
  - apply Ascii.eqb_eq in Hch as ->.
    rewrite Join_cons by apply Split_not_nil. by rewrite IH.
  - destruct (Split rest sep) as [|piece pieces] eqn:Hs; [by apply Split_not_nil in Hs|].
    destruct pieces as [|piece' pieces].
    + cbn [Join] in *. by rewrite IH.
    + rewrite Join_cons in IH by done. rewrite Join_cons by done.
      by rewrite <- IH.
Qed.

Lemma Split_in_two s sep a b :
  Split s sep = [a; b]
  ↔ s = (a ++ String sep b)%string ∧ contains a sep = false ∧ contains b sep = false.
Proof.
  split.
  - intros Hs. pose proof (Join_Split s sep) as Hj. pose proof (Split_pieces s sep) as Hp.
    rewrite Hs in Hj, Hp. cbn [Join] in Hj.
    apply Forall_cons in Hp as [Ha Hp]. apply Forall_cons in Hp as [Hb _]. done.
  - intros (-> & Ha & Hb). by rewrite Split_at_first_sep, Split_without_sep.
Qed.

(** X17.  [AuthMiddleware] hands a request to the wrapped handler exactly when its
    [Authorization] header is the word [Bearer], one space, and a token
    without a space that [jwt.Parse] finds valid.  Every other request is
    answered 401 and changes nothing: with "Authorization header required"
    when the header is missing or empty, with "Invalid token" when the header
    has that shape but the token is refused, and with "Invalid authorization
    format" otherwise (another scheme, a lower-case [bearer], no token, or a
    second space anywhere). *)
Theorem AuthMiddleware_decides {St : Type} (jwt_Parse : string → Parsed)
    (next : Request → ResponseWriter → M St ResponseWriter)
    (req : Request) (w : ResponseWriter) (st : St) :
  (∃ tok, Header_Get (Header req) "Authorization" = ("Bearer " ++ tok)%string
          ∧ contains tok space = false
          ∧ jwt_Parse tok = Token true
          ∧ AuthMiddleware jwt_Parse next req w st = next req w st)
  ∨ ((¬ ∃ tok, Header_Get (Header req) "Authorization" = ("Bearer " ++ tok)%string
               ∧ contains tok space = false
               ∧ jwt_Parse tok = Token true)
     ∧ ∃ msg,
         AuthMiddleware jwt_Parse next req w st
         = Done (http_Error w msg StatusUnauthorized) st
         ∧ (Header_Get (Header req) "Authorization" = EmptyString →
            msg = "Authorization header required"%string)
         ∧ (Header_Get (Header req) "Authorization" ≠ EmptyString →
            (∃ tok, Header_Get (Header req) "Authorization" = ("Bearer " ++ tok)%string
                    ∧ contains tok space = false) →
            msg = "Invalid token"%string)
         ∧ (Header_Get (Header req) "Authorization" ≠ EmptyString →
            (¬ ∃ tok, Header_Get (Header req) "Authorization" = ("Bearer " ++ tok)%string
                      ∧ contains tok space = false) →
            msg = "Invalid authorization format"%string)).
Proof.
  unfold AuthMiddleware. cbv zeta.
  set (h := Header_Get (Header req) "Authorization").
  assert (Hshape : ∀ tok, h = ("Bearer " ++ tok)%string ∧ contains tok space = false
                          ↔ Split h space = ["Bearer"%string; tok]).
  { intros tok. rewrite Split_in_two. change ("Bearer " ++ tok)%string
      with ("Bearer" ++ String space tok)%string. naive_solver. }
  destruct (decide (h = EmptyString)) as [He|Hne].
  { right. split.
    - intros (tok & Hh & _). rewrite He in Hh. discriminate.
    - eexists. split_and!; [reflexivity|done|done|done]. }
  destruct (Split h space) as [|scheme [|tokenString [|extra pieces]]] eqn:Hsplit.
  1,2,4: right; split;
    [intros (tok & Hh & Hsp & _); by specialize (proj1 (Hshape tok) (conj Hh Hsp))
    |eexists; split_and!; [reflexivity|done| |done];
     intros _ (tok & Hh & Hsp); by specialize (proj1 (Hshape tok) (conj Hh Hsp))].
  destruct (decide (scheme ≠ "Bearer"%string)) as [Hs|Hs].
  { right. split.
    - intros (tok & Hh & Hsp & _).
      pose proof (proj1 (Hshape tok) (conj Hh Hsp)) as [= ? ?]. done.
    - eexists. split_and!; [reflexivity|done| |done].
      intros _ (tok & Hh & Hsp).
      pose proof (proj1 (Hshape tok) (conj Hh Hsp)) as [= ? ?]. done. }
  apply dec_stable in Hs. subst scheme.
  destruct (proj2 (Hshape tokenString) eq_refl) as [Hh Hsp].
  assert (Htok : ∀ tok, h = ("Bearer " ++ tok)%string → tok = tokenString).
  { intros tok Hh'. rewrite Hh in Hh'. by injection Hh'. }
  destruct (jwt_Parse tokenString) as [|[|]] eqn:Hjwt.
  - right. split.
    + intros (tok & Hh' & _ & Hp). rewrite (Htok tok Hh'), Hjwt in Hp. discriminate.
    + eexists. split_and!; [reflexivity|done|done|].
      intros _ Hno. exfalso. apply Hno. by exists tokenString.
  - left. by exists tokenString.
  - right. split.
    + intros (tok & Hh' & _ & Hp). rewrite (Htok tok Hh'), Hjwt in Hp. discriminate.
    + eexists. split_and!; [reflexivity|done|done|].
      intros _ Hno. exfalso. apply Hno. by exists tokenString.
Qed.
End bearer.
